(** * jsonschema: keyword registry and error model (keyword.go)

    A shallow embedding of [keyword.go]: the keyword registry with its three
    Go maps, the [Keyword] interface, [KeyError] and [InvalidValueString].

    Go maps are reference values.  A [KeywordRegistry] therefore holds three
    map references, and the maps themselves live in a store that every
    registry operation reads or updates.  Two registries alias exactly when
    they hold the same reference.

    The package-level registry [kr] and its mutex [krLock] only decide which
    registry a call works on and that calls do not overlap; every method is
    modelled as one step on the store. *)

From Stdlib Require Import ZArith Strings.Byte DecimalString.
From stdpp Require Import gmap strings list fin_maps.

Local Open Scope Z_scope.

(** Decide a closed proposition by evaluating its decision procedure. *)
Ltac by_evaluation := apply (bool_decide_unpack _); vm_compute; exact I.

(** ** Outcomes of Go code that may panic *)

(** The only run-time panic [keyword.go] can raise on its own is the bounds
    check of the slice expression [bt[:n]]. *)
Inductive panic : Type :=
  | SliceBoundsOutOfRange (n : Z).

Inductive outcome (A : Type) : Type :=
  | Returned (a : A)
  | Panicked (p : panic).

Arguments Returned {A} a.
Arguments Panicked {A} p.

Definition outcome_map {A B : Type} (f : A → B) (o : outcome A) : outcome B :=
  match o with
  | Returned a => Returned (f a)
  | Panicked p => Panicked p
  end.

(** ** Byte slices *)

Definition bytes : Type := list Byte.byte.

(** [len(bt)] as a Go [int]. *)
Definition len (bt : bytes) : Z := Z.of_nat (length bt).

(** The slice expression [bt[:n]].  Go panics when [n] is negative or beyond
    the capacity of [bt].  Only the length of [bt] is modelled: a bound in
    the spare capacity ([len bt < n <= cap bt]) is reported as out of range,
    a case [InvalidValueString] never requests because it slices only under
    the guard [len bt > n]. *)
Definition slice_to (bt : bytes) (n : Z) : outcome bytes :=
  if (n <? 0) || (len bt <? n)
  then Panicked (SliceBoundsOutOfRange n)
  else Returned (take (Z.to_nat n) bt).

(** Does [s] start with [old]? ([bytes.HasPrefix]) *)
Fixpoint has_prefix (old s : bytes) : bool :=
  match old, s with
  | [], _ => true
  | _ :: _, [] => false
  | o :: old', b :: s' => if Byte.eqb o b then has_prefix old' s' else false
  end.

(** [bytes.Replace(s, old, new, -1)] for a non-empty [old]: scanning from the
    left, every non-overlapping occurrence of the byte sequence [old] is
    replaced by [new].  [skip] counts the bytes of an occurrence that are
    still to be dropped. *)
Fixpoint replace_from (old new : bytes) (skip : nat) (s : bytes) : bytes :=
  match s with
  | [] => []
  | b :: s' =>
      match skip with
      | S k => replace_from old new k s'
      | O =>
          if has_prefix old s
          then new ++ replace_from old new (length old - 1) s'
          else b :: replace_from old new 0 s'
      end
  end.

Definition bytes_ReplaceAll (s old new : bytes) : bytes :=
  replace_from old new 0 s.

(** Does the byte sequence [old] occur somewhere in [s]?
    ([bytes.Contains]) *)
Fixpoint occurs (old s : bytes) : bool :=
  has_prefix old s ||
  match s with
  | [] => false
  | _ :: s' => occurs old s'
  end.

(** Does [s] hold a raw newline or carriage-return byte? *)
Definition has_line_break (s : bytes) : bool :=
  existsb (λ b, Byte.eqb x0a b || Byte.eqb x0d b) s.

(** ** The store of Go maps *)

(** A map reference. *)
Definition loc : Type := nat.

(** The package-level variables a rendering call reads.  [int] is modelled
    as [Z]: the code only compares these numbers, it never computes with
    them. *)
Record pkgvars : Type := mkPkgvars {
  MaxKeywordErrStringLen : Z
}.

(** [var MaxKeywordErrStringLen = 20] *)
Definition initial_pkgvars : pkgvars := {| MaxKeywordErrStringLen := 20 |}.

(** [var notSupported = map[string]bool{...}], used as a set. *)
Definition notSupported : gset string :=
  {[ "$vocabulary"; "contentEncoding"; "contentMediaType"; "contentSchema";
     "deprecated"; "definitions"; "dependencies" ]}%string.

Section Model.

(** Types owned by collaborators outside [keyword.go]: the dynamic values
    an [interface{}] can hold, compiled schemas, the schema registry, and
    the bookkeeping part of a validation run. *)
Context {Value Schema SchemaRegistry RunState : Type}.

(** [interface{}]: [None] is the nil interface. *)
Definition any : Type := option Value.

(** [json.Marshal] belongs to the Go standard library; it is a parameter
    of the model.  [None] stands for a non-nil [err]. *)
Variable json_Marshal : any → option bytes.

(** What [encoding/json] guarantees of every text it returns: control
    characters inside strings are written as escapes and the output of
    custom marshalers is checked and compacted, so the text holds no raw
    newline and no raw carriage-return byte.  The theorems that need this
    of the library take it as a hypothesis. *)
Definition emits_no_line_break : Prop :=
  ∀ data bt, json_Marshal data = Some bt → has_line_break bt = false.

Record KeyError : Type := mkKeyError {
  PropertyPath : string;
  InvalidValue : any;
  Message : string
}.

(** Modelled from the spec: [ValidationState], declared outside
    [keyword.go].  The spec describes it as the per-run mutable context
    holding the accumulated [KeyError] list and local bookkeeping. *)
Record ValidationState : Type := mkValidationState {
  Errs : list KeyError;
  Bookkeeping : RunState
}.

(** A JSON pointer is a sequence of reference tokens ([jptr.Pointer]). *)
Definition Pointer : Type := list string.

(** The [Keyword] interface, as the record of its three methods.  The
    methods that mutate their pointer argument return the updated value;
    [Resolve] returns [None] for a nil [*Schema].  The [context.Context]
    argument of [ValidateKeyword] carries cancellation only and is left
    out. *)
Record Keyword : Type := mkKeyword {
  ValidateKeyword : ValidationState → Value → ValidationState;
  Register : string → SchemaRegistry → SchemaRegistry;
  Resolve : Pointer → string → option Schema
}.

(** [KeyMaker]: [func() Keyword]. *)
Definition KeyMaker : Type := unit → Keyword.

(** Modelled from the spec: [NewVoid], declared outside [keyword.go].  The
    spec describes the void variant as a total no-op: it validates
    nothing, registers nothing and resolves to nothing. *)
Definition NewVoid : KeyMaker := λ _,
  {| ValidateKeyword := λ st _, st;
     Register := λ _ reg, reg;
     Resolve := λ _ _, None |}.

(** The store: the maps of type [map[string]KeyMaker], the maps of type
    [map[string]int], and the next reference [make] hands out. *)
Record heap : Type := mkHeap {
  makerMaps : gmap loc (gmap string KeyMaker);
  intMaps : gmap loc (gmap string Z);
  nextLoc : loc
}.

Definition makers_at (h : heap) (l : loc) : gmap string KeyMaker :=
  default ∅ (makerMaps h !! l).

Definition ints_at (h : heap) (l : loc) : gmap string Z :=
  default ∅ (intMaps h !! l).

(** [make(map[string]KeyMaker, n)] *)
Definition make_makers (h : heap) : loc * heap :=
  (nextLoc h,
   {| makerMaps := <[nextLoc h := ∅]> (makerMaps h);
      intMaps := intMaps h;
      nextLoc := S (nextLoc h) |}).

(** [make(map[string]int, n)] *)
Definition make_ints (h : heap) : loc * heap :=
  (nextLoc h,
   {| makerMaps := makerMaps h;
      intMaps := <[nextLoc h := ∅]> (intMaps h);
      nextLoc := S (nextLoc h) |}).

(** [m[k] = v] on a [map[string]KeyMaker] *)
Definition store_maker (l : loc) (k : string) (v : KeyMaker) (h : heap) : heap :=
  {| makerMaps := <[l := <[k := v]> (makers_at h l)]> (makerMaps h);
     intMaps := intMaps h;
     nextLoc := nextLoc h |}.

(** [m[k] = v] on a [map[string]int] *)
Definition store_int (l : loc) (k : string) (v : Z) (h : heap) : heap :=
  {| makerMaps := makerMaps h;
     intMaps := <[l := <[k := v]> (ints_at h l)]> (intMaps h);
     nextLoc := nextLoc h |}.

(** ** KeywordRegistry *)

Record KeywordRegistry : Type := mkKeywordRegistry {
  keywordRegistry : loc;
  keywordOrder : loc;
  keywordInsertOrder : loc
}.

(** The registry literal of [getGlobalKeywordRegistry]: three fresh, empty
    maps. *)
Definition newKeywordRegistry (h : heap) : KeywordRegistry * heap :=
  let '(l1, h1) := make_makers h in
  let '(l2, h2) := make_ints h1 in
  let '(l3, h3) := make_ints h2 in
  ({| keywordRegistry := l1; keywordOrder := l2; keywordInsertOrder := l3 |}, h3).

(** [for k, v := range src { dst[k] = v }] *)
Definition range_copy_makers (src dst : loc) (h : heap) : heap :=
  map_fold (λ k v acc, store_maker dst k v acc) h (makers_at h src).

Definition range_copy_ints (src dst : loc) (h : heap) : heap :=
  map_fold (λ k v acc, store_int dst k v acc) h (ints_at h src).

Definition Copy (r : KeywordRegistry) (h : heap) : KeywordRegistry * heap :=
  let '(l1, h1) := make_makers h in
  let '(l2, h2) := make_ints h1 in
  let '(l3, h3) := make_ints h2 in
  let dest := {| keywordRegistry := l1; keywordOrder := l2; keywordInsertOrder := l3 |} in
  let h4 := range_copy_makers (keywordRegistry r) (keywordRegistry dest) h3 in
  let h5 := range_copy_ints (keywordOrder r) (keywordOrder dest) h4 in
  let h6 := range_copy_ints (keywordInsertOrder r) (keywordInsertOrder dest) h5 in
  (dest, h6).

Definition IsRegisteredKeyword (r : KeywordRegistry) (prop : string) (h : heap) : bool :=
  match makers_at h (keywordRegistry r) !! prop with
  | Some _ => true
  | None => false
  end.

(** After the guard the lookup [r.keywordRegistry[prop]] always finds the
    maker; the [None] branch stands for the call of a nil function, which
    the guard rules out (see [GetKeyword_registered]). *)
Definition GetKeyword (r : KeywordRegistry) (prop : string) (h : heap) : Keyword :=
  if negb (IsRegisteredKeyword r prop h)
  then NewVoid ()
  else match makers_at h (keywordRegistry r) !! prop with
       | Some maker => maker ()
       | None => NewVoid ()
       end.

Definition GetKeywordOrder (r : KeywordRegistry) (prop : string) (h : heap) : Z :=
  match ints_at h (keywordOrder r) !! prop with
  | Some order => order
  | None => 1
  end.

Definition GetKeywordInsertOrder (r : KeywordRegistry) (prop : string) (h : heap) : Z :=
  match ints_at h (keywordInsertOrder r) !! prop with
  | Some order => order
  | None => 1000
  end.

Definition SetKeywordOrder (r : KeywordRegistry) (prop : string) (order : Z)
    (h : heap) : heap :=
  store_int (keywordOrder r) prop order h.

(** Every map of the model was made by [make], so the nil test of the
    source always passes. *)
Definition IsRegistryLoaded (r : KeywordRegistry) (h : heap) : bool :=
  bool_decide (0 < Z.of_nat (size (makers_at h (keywordRegistry r)))).

(** The right-hand side [len(r.keywordInsertOrder)] is evaluated before the
    assignment to the map. *)
Definition RegisterKeyword (r : KeywordRegistry) (prop : string) (maker : KeyMaker)
    (h : heap) : heap :=
  let h1 := store_maker (keywordRegistry r) prop maker h in
  store_int (keywordInsertOrder r) prop
    (Z.of_nat (size (ints_at h1 (keywordInsertOrder r)))) h1.

(** The receiver is not used: membership in the fixed table. *)
Definition IsNotSupportedKeyword (r : KeywordRegistry) (prop : string) : bool :=
  bool_decide (prop ∈ notSupported).

(** ** Error model *)

Definition InvalidValueString (g : pkgvars) (data : any) : outcome string :=
  match json_Marshal data with
  | None => Returned EmptyString
  | Some bt =>
      let bt := bytes_ReplaceAll bt [x0a; x0d] [x20] in
      if negb (MaxKeywordErrStringLen g =? -1) && (MaxKeywordErrStringLen g <? len bt)
      then outcome_map
             (λ pre, String.string_of_list_byte (pre ++ String.list_byte_of_string "..."))
             (slice_to bt (MaxKeywordErrStringLen g))
      else Returned (String.string_of_list_byte bt)
  end.

(** [fmt.Sprintf] with [%s] verbs and string arguments concatenates. *)
Definition Error (g : pkgvars) (v : KeyError) : outcome string :=
  if bool_decide (PropertyPath v ≠ EmptyString) && bool_decide (InvalidValue v ≠ None)
  then outcome_map
         (λ val, PropertyPath v +:+ ": " +:+ val +:+ " " +:+ Message v)
         (InvalidValueString g (InvalidValue v))
  else if bool_decide (PropertyPath v ≠ EmptyString)
  then Returned (PropertyPath v +:+ ": " +:+ Message v)
  else Returned (Message v).

(** ** Sequences of calls on one registry *)

Inductive call : Type :=
  | CallRegisterKeyword (prop : string) (maker : KeyMaker)
  | CallSetKeywordOrder (prop : string) (order : Z).

Definition call_name (c : call) : string :=
  match c with
  | CallRegisterKeyword prop _ => prop
  | CallSetKeywordOrder prop _ => prop
  end.

Definition do_call (r : KeywordRegistry) (h : heap) (c : call) : heap :=
  match c with
  | CallRegisterKeyword prop maker => RegisterKeyword r prop maker h
  | CallSetKeywordOrder prop order => SetKeywordOrder r prop order h
  end.

Definition do_calls (r : KeywordRegistry) (cs : list call) (h : heap) : heap :=
  foldl (do_call r) h cs.

(** The names passed to [RegisterKeyword], in call order. *)
Fixpoint registered_names (cs : list call) : list string :=
  match cs with
  | [] => []
  | CallRegisterKeyword prop _ :: cs' => prop :: registered_names cs'
  | CallSetKeywordOrder _ _ :: cs' => registered_names cs'
  end.

(** ** Well-formed stores and registries *)

(** Every live map was handed out by [make]. *)
Definition heap_ok (h : heap) : Prop :=
  map_Forall (λ l _, (l < nextLoc h)%nat) (makerMaps h) ∧
  map_Forall (λ l _, (l < nextLoc h)%nat) (intMaps h).

(** The three maps of a registry are live and the two [map[string]int]
    are different maps, as in every registry built by this file. *)
Definition registry_ok (h : heap) (r : KeywordRegistry) : Prop :=
  is_Some (makerMaps h !! keywordRegistry r) ∧
  is_Some (intMaps h !! keywordOrder r) ∧
  is_Some (intMaps h !! keywordInsertOrder r) ∧
  keywordOrder r ≠ keywordInsertOrder r.

(** Two registries share none of their maps. *)
Definition separate (r1 r2 : KeywordRegistry) : Prop :=
  keywordRegistry r1 ≠ keywordRegistry r2 ∧
  keywordOrder r1 ≠ keywordOrder r2 ∧
  keywordOrder r1 ≠ keywordInsertOrder r2 ∧
  keywordInsertOrder r1 ≠ keywordOrder r2 ∧
  keywordInsertOrder r1 ≠ keywordInsertOrder r2.

(** The four lookups of [r1] in store [h1] answer as those of [r2] in
    store [h2], for every name. *)
Definition same_lookups (r1 : KeywordRegistry) (h1 : heap)
    (r2 : KeywordRegistry) (h2 : heap) : Prop :=
  ∀ name,
    IsRegisteredKeyword r1 name h1 = IsRegisteredKeyword r2 name h2 ∧
    GetKeyword r1 name h1 = GetKeyword r2 name h2 ∧
    GetKeywordOrder r1 name h1 = GetKeywordOrder r2 name h2 ∧
    GetKeywordInsertOrder r1 name h1 = GetKeywordInsertOrder r2 name h2.

(** Two stores with the same live maps and the same next reference. *)
Definition same_shape (h1 h2 : heap) : Prop :=
  nextLoc h1 = nextLoc h2 ∧
  (∀ l, is_Some (makerMaps h1 !! l) ↔ is_Some (makerMaps h2 !! l)) ∧
  (∀ l, is_Some (intMaps h1 !! l) ↔ is_Some (intMaps h2 !! l)).

#[global] Instance heap_ok_dec (h : heap) : Decision (heap_ok h).
Proof. unfold heap_ok. apply _. Defined.

#[global] Instance registry_ok_dec (h : heap) (r : KeywordRegistry) :
  Decision (registry_ok h r).
Proof. unfold registry_ok. apply _. Defined.

End Model.

(** ** The package-level registry *)

(** [var kr *KeywordRegistry] starts out nil and is created on first use.
    [krLock] is held from [getGlobalKeywordRegistry] until the returned
    release function runs, which every caller defers to its own return:
    each package-level function is one step on the package state. *)
Module Package.
Section Globals.

Context {Value Schema SchemaRegistry RunState : Type}.

Local Abbreviation method_Copy := Copy.
Local Abbreviation method_SetKeywordOrder := SetKeywordOrder.
Local Abbreviation method_RegisterKeyword := RegisterKeyword.

(** The variable [kr] ([None] is nil) and the store of maps. *)
Record state : Type := mkState {
  kr : option KeywordRegistry;
  mem : @heap Value Schema SchemaRegistry RunState
}.

Definition getGlobalKeywordRegistry (p : state) : KeywordRegistry * state :=
  match kr p with
  | Some r => (r, p)
  | None =>
      let '(r, h) := newKeywordRegistry (mem p) in
      (r, {| kr := Some r; mem := h |})
  end.

Definition copyGlobalKeywordRegistry (p : state) : KeywordRegistry * state :=
  let '(r, p1) := getGlobalKeywordRegistry p in
  let '(c, h) := method_Copy r (mem p1) in
  (c, {| kr := kr p1; mem := h |}).

Definition SetKeywordOrder (prop : string) (order : Z) (p : state) : state :=
  let '(r, p1) := getGlobalKeywordRegistry p in
  {| kr := kr p1; mem := method_SetKeywordOrder r prop order (mem p1) |}.

Definition RegisterKeyword (prop : string) (maker : KeyMaker) (p : state) : state :=
  let '(r, p1) := getGlobalKeywordRegistry p in
  {| kr := kr p1; mem := method_RegisterKeyword r prop maker (mem p1) |}.

(** The store is well formed and so is the registry [kr] points to, if
    any. *)
Definition state_ok (p : state) : Prop :=
  heap_ok (mem p) ∧
  match kr p with
  | Some r => registry_ok (mem p) r
  | None => True
  end.

(** The package-level calls that change the shared registry. *)
Definition do_call (p : state) (c : call) : state :=
  match c with
  | CallRegisterKeyword prop maker => RegisterKeyword prop maker p
  | CallSetKeywordOrder prop order => SetKeywordOrder prop order p
  end.

Definition do_calls (cs : list call) (p : state) : state :=
  foldl do_call p cs.

#[global] Instance state_ok_dec (p : state) : Decision (state_ok p).
Proof. unfold state_ok. destruct (kr p); apply _. Defined.

End Globals.
End Package.

(** ** A concrete instance, for evaluating the model *)

Module Sample.

(** A value is either an integer (a [*big.Int] holds any) or something
    that cannot be serialised (a channel). *)
Inductive value : Type :=
  | Int (n : Z)
  | Chan.

(** [json.Marshal] on these values: the nil interface gives [null], an
    integer its decimal digits, a channel an error. *)
Definition marshal (d : option value) : option bytes :=
  match d with
  | None => Some (String.list_byte_of_string "null")
  | Some (Int n) =>
      Some (String.list_byte_of_string (NilZero.string_of_int (Z.to_int n)))
  | Some Chan => None
  end.

Definition keyword : Type := @Keyword value unit unit unit.
Definition store : Type := @heap value unit unit unit.

Definition empty_store : store :=
  {| makerMaps := ∅; intMaps := ∅; nextLoc := 0%nat |}.

(** A keyword that records one error on every value. *)
Definition failing (msg : string) : unit → keyword := λ _,
  {| ValidateKeyword := λ st data,
       {| Errs := Errs st ++ [ {| PropertyPath := "/"; InvalidValue := Some data;
                                  Message := msg |} ];
          Bookkeeping := Bookkeeping st |};
     Register := λ _ reg, reg;
     Resolve := λ _ _, None |}.

(** An empty registry in an empty store. *)
Definition r0 : KeywordRegistry := (newKeywordRegistry empty_store).1.
Definition h0 : store := (newKeywordRegistry empty_store).2.

(** The same registry after registering "type", then "enum". *)
Definition h2 : store :=
  do_calls r0 [CallRegisterKeyword "type" (failing "type");
               CallRegisterKeyword "enum" (failing "enum")] h0.

(** Three names registered once each, with a priority set in between. *)
Definition calls_once : list (@call value unit unit unit) :=
  [CallRegisterKeyword "type" (failing "type");
   CallSetKeywordOrder "type" 0;
   CallRegisterKeyword "enum" (failing "enum");
   CallRegisterKeyword "const" (failing "const")].

(** "type" registered a second time before "const" arrives. *)
Definition calls_twice : list (@call value unit unit unit) :=
  [CallRegisterKeyword "type" (failing "type");
   CallRegisterKeyword "enum" (failing "enum");
   CallRegisterKeyword "type" (failing "again");
   CallRegisterKeyword "const" (failing "const")].

(** A copy of the registry holding "type" and "enum". *)
Definition copied : KeywordRegistry * store := Copy r0 h2.

(** Calls that change a registry: a new name and a new priority. *)
Definition calls_later : list (@call value unit unit unit) :=
  [CallRegisterKeyword "format" (failing "format");
   CallSetKeywordOrder "type" 7].

(** The package state before anything touched the shared registry. *)
Definition initial_state : @Package.state value unit unit unit :=
  {| Package.kr := None; Package.mem := empty_store |}.

(** A second registry, made after [r0] holds "type" and "enum". *)
Definition r1 : KeywordRegistry := (newKeywordRegistry h2).1.
Definition h3 : store := (newKeywordRegistry h2).2.

(** 1002 names, k0 to k1001, registered once each. *)
Definition many_name (n : nat) : string :=
  "k" +:+ NilZero.string_of_uint (Nat.to_uint n).

Definition calls_many : list (@call value unit unit unit) :=
  (λ n, CallRegisterKeyword (many_name n) (failing "k")) <$> seq 0 1002.

End Sample.

(** * Properties *)

Section Facts.

Context {Value Schema SchemaRegistry RunState : Type}.
Variable json_Marshal : @any Value → option bytes.

Local Abbreviation Heap := (@heap Value Schema SchemaRegistry RunState).
Local Abbreviation Maker := (@KeyMaker Value Schema SchemaRegistry RunState).
Local Abbreviation Call := (@call Value Schema SchemaRegistry RunState).

Implicit Types (h : Heap) (r c : KeywordRegistry) (l : loc)
  (prop name : string) (maker : Maker) (cs : list Call).

(** ** Reading the store after a write *)

Lemma makers_at_store_maker l l' k v h :
  makers_at (store_maker l k v h) l' =
    if decide (l = l') then <[k := v]> (makers_at h l) else makers_at h l'.
Proof.
  unfold makers_at at 1. simpl. case_decide as E.
  - subst l'. by rewrite lookup_insert_eq.
  - by rewrite lookup_insert_ne.
Qed.

Lemma ints_at_store_int l l' k z h :
  ints_at (store_int l k z h) l' =
    if decide (l = l') then <[k := z]> (ints_at h l) else ints_at h l'.
Proof.
  unfold ints_at at 1. simpl. case_decide as E.
  - subst l'. by rewrite lookup_insert_eq.
  - by rewrite lookup_insert_ne.
Qed.

Lemma ints_at_store_maker l l' k v h :
  ints_at (store_maker l k v h) l' = ints_at h l'.
Proof. reflexivity. Qed.

Lemma makers_at_store_int l l' k z h :
  makers_at (store_int l k z h) l' = makers_at h l'.
Proof. reflexivity. Qed.

(** ** What each call does to the three maps of a registry *)

Lemma RegisterKeyword_makers r prop maker h l :
  makers_at (RegisterKeyword r prop maker h) l =
    if decide (keywordRegistry r = l)
    then <[prop := maker]> (makers_at h l)
    else makers_at h l.
Proof.
  unfold RegisterKeyword. rewrite makers_at_store_int, makers_at_store_maker.
  case_decide; by subst.
Qed.

Lemma RegisterKeyword_ints r prop maker h l :
  ints_at (RegisterKeyword r prop maker h) l =
    if decide (keywordInsertOrder r = l)
    then <[prop := Z.of_nat (size (ints_at h l))]> (ints_at h l)
    else ints_at h l.
Proof.
  unfold RegisterKeyword. rewrite ints_at_store_int, !ints_at_store_maker.
  case_decide; by subst.
Qed.

Lemma SetKeywordOrder_makers r prop order h l :
  makers_at (SetKeywordOrder r prop order h) l = makers_at h l.
Proof. reflexivity. Qed.

Lemma SetKeywordOrder_ints r prop (order : Z) h l :
  ints_at (SetKeywordOrder r prop order h) l =
    if decide (keywordOrder r = l)
    then <[prop := order]> (ints_at h l)
    else ints_at h l.
Proof.
  unfold SetKeywordOrder. rewrite ints_at_store_int. case_decide; by subst.
Qed.

Lemma do_calls_snoc r cs (x : Call) h :
  do_calls r (cs ++ [x]) h = do_call r (do_calls r cs h) x.
Proof. unfold do_calls. by rewrite foldl_snoc. Qed.

Lemma registered_names_snoc cs (x : Call) :
  registered_names (cs ++ [x]) =
    registered_names cs ++
      match x with
      | CallRegisterKeyword prop _ => [prop]
      | CallSetKeywordOrder _ _ => []
      end.
Proof.
  induction cs as [|y cs IH]; simpl.
  - by destruct x.
  - destruct y; simpl; by rewrite IH.
Qed.

(** ** Lookups are functions of the three maps *)

Lemma GetKeyword_lookup r prop h :
  GetKeyword r prop h =
    match makers_at h (keywordRegistry r) !! prop with
    | Some maker => maker ()
    | None => NewVoid ()
    end.
Proof.
  unfold GetKeyword, IsRegisteredKeyword.
  by destruct (makers_at h (keywordRegistry r) !! prop).
Qed.

Lemma GetKeyword_registered r prop h :
  IsRegisteredKeyword r prop h = true →
  ∃ maker, makers_at h (keywordRegistry r) !! prop = Some maker ∧
           GetKeyword r prop h = maker ().
Proof.
  rewrite GetKeyword_lookup. unfold IsRegisteredKeyword.
  destruct (makers_at h (keywordRegistry r) !! prop) as [mk|]; [eauto|done].
Qed.

(** ** Unregistered names *)

(** C4: for a name that is not registered, [GetKeyword] returns the void
    keyword; its [ValidateKeyword] leaves the validation state, and so the
    error list, as it was, and its [Resolve] returns nothing. *)
Theorem GetKeyword_unregistered r name h :
  IsRegisteredKeyword r name h = false →
  GetKeyword r name h = NewVoid () ∧
  (∀ st data, Errs (ValidateKeyword (GetKeyword r name h) st data) = Errs st) ∧
  (∀ pointer uri, Resolve (GetKeyword r name h) pointer uri = None).
Proof.
  intros Hno.
  assert (GetKeyword r name h = NewVoid ()) as ->; [|done].
  unfold GetKeyword. by rewrite Hno.
Qed.

(** ** A registry fresh from its literal *)

Lemma newKeywordRegistry_empty h r h0 :
  newKeywordRegistry h = (r, h0) →
  makers_at h0 (keywordRegistry r) = ∅ ∧
  ints_at h0 (keywordOrder r) = ∅ ∧
  ints_at h0 (keywordInsertOrder r) = ∅ ∧
  keywordOrder r ≠ keywordInsertOrder r.
Proof.
  unfold newKeywordRegistry. simpl. intros [= <- <-]. simpl.
  unfold makers_at, ints_at. simpl. split_and!.
  - by rewrite lookup_insert_eq.
  - rewrite lookup_insert_ne by lia. by rewrite lookup_insert_eq.
  - by rewrite lookup_insert_eq.
  - lia.
Qed.

(** ** Names no call mentions *)

Lemma do_call_ints_other r h (x : Call) name l :
  call_name x ≠ name →
  ints_at (do_call r h x) l !! name = ints_at h l !! name.
Proof.
  intros Hne. destruct x as [p mk|p o]; simpl in *.
  - rewrite RegisterKeyword_ints. case_decide; [|done].
    by rewrite lookup_insert_ne.
  - rewrite SetKeywordOrder_ints. case_decide; [|done].
    by rewrite lookup_insert_ne.
Qed.

Lemma do_calls_ints_other r cs h name l :
  name ∉ call_name <$> cs →
  ints_at (do_calls r cs h) l !! name = ints_at h l !! name.
Proof.
  induction cs as [|x cs IH] using rev_ind; [done|].
  rewrite fmap_app, not_elem_of_app. simpl. intros [Hcs Hx].
  rewrite do_calls_snoc, do_call_ints_other; [by apply IH|].
  intros E. apply Hx. rewrite E. apply list_elem_of_here.
Qed.

(** ** Insert orders of names registered once *)

Lemma do_calls_tables r cs h :
  makers_at h (keywordRegistry r) = ∅ →
  ints_at h (keywordInsertOrder r) = ∅ →
  keywordOrder r ≠ keywordInsertOrder r →
  NoDup (registered_names cs) →
  let h' := do_calls r cs h in
  dom (makers_at h' (keywordRegistry r)) = list_to_set (registered_names cs) ∧
  dom (ints_at h' (keywordInsertOrder r)) = list_to_set (registered_names cs) ∧
  ∀ i n, registered_names cs !! i = Some n →
         ints_at h' (keywordInsertOrder r) !! n = Some (Z.of_nat i).
Proof.
  intros HR HIO Hne. simpl.
  induction cs as [|x cs IH] using rev_ind; intros Hnd.
  - simpl. rewrite HR, HIO, !dom_empty_L. done.
  - rewrite registered_names_snoc in *. rewrite do_calls_snoc.
    destruct x as [p mk|p o]; simpl.
    + apply NoDup_app in Hnd as (Hnd & Hp & _).
      destruct (IH Hnd) as (IH1 & IH2 & IH3).
      assert (p ∉ registered_names cs) as Hfresh.
      { intros Hin. apply (Hp _ Hin), list_elem_of_here. }
      rewrite RegisterKeyword_makers, RegisterKeyword_ints.
      rewrite !decide_True by done.
      rewrite !dom_insert_L, IH1, IH2, list_to_set_app_L. simpl.
      rewrite (right_id_L ∅ (∪)), (comm_L (∪) {[p]}).
      split_and!; [done..|].
      intros i n [Hi|[Hlen Hi]]%lookup_app_Some.
      * rewrite lookup_insert_ne; [by apply IH3|].
        intros ->. apply Hfresh. eapply list_elem_of_lookup_2, Hi.
      * apply list_lookup_singleton_Some in Hi as [Hi ->].
        rewrite lookup_insert_eq. do 2 f_equal.
        rewrite <-size_dom, IH2, size_list_to_set by done. lia.
    + rewrite app_nil_r in *.
      destruct (IH Hnd) as (IH1 & IH2 & IH3).
      rewrite SetKeywordOrder_makers, SetKeywordOrder_ints.
      by rewrite decide_False by done.
Qed.

(** X19: starting from an empty registry, after a sequence of calls that
    passes no name to [RegisterKeyword] twice, the i-th registered name
    has insert order i.  Hence two distinct registered names have different
    insert orders, the one registered first has the smaller one, and the
    insert orders of the N registered names are exactly 0..N-1. *)
Theorem insert_orders_of_names_registered_once h cs r h0 :
  newKeywordRegistry h = (r, h0) →
  NoDup (registered_names cs) →
  let h' := do_calls r cs h0 in
  let names := registered_names cs in
  (∀ n, IsRegisteredKeyword r n h' = true ↔ n ∈ names) ∧
  (∀ i n, names !! i = Some n → GetKeywordInsertOrder r n h' = Z.of_nat i) ∧
  (∀ n1 n2, n1 ∈ names → n2 ∈ names → n1 ≠ n2 →
            GetKeywordInsertOrder r n1 h' ≠ GetKeywordInsertOrder r n2 h') ∧
  (∀ i j n1 n2, names !! i = Some n1 → names !! j = Some n2 → (i < j)%nat →
            GetKeywordInsertOrder r n1 h' < GetKeywordInsertOrder r n2 h') ∧
  (∀ k, 0 ≤ k < Z.of_nat (length names) ↔
        ∃ n, n ∈ names ∧ GetKeywordInsertOrder r n h' = k).
Proof.
  intros Hnew Hnd h' names.
  destruct (newKeywordRegistry_empty _ _ _ Hnew) as (HR & _ & HIO & Hne).
  destruct (do_calls_tables r cs h0 HR HIO Hne Hnd) as (Hdom & _ & Hidx).
  fold h' names in Hdom, Hidx.
  assert (∀ i n, names !! i = Some n →
                 GetKeywordInsertOrder r n h' = Z.of_nat i) as Hord.
  { intros i n Hi. unfold GetKeywordInsertOrder. by rewrite (Hidx i n Hi). }
  split_and!; [|done|..].
  - intros n. unfold IsRegisteredKeyword.
    transitivity (n ∈ dom (makers_at h' (keywordRegistry r))).
    + rewrite elem_of_dom.
      destruct (makers_at h' (keywordRegistry r) !! n).
      * split; [by eauto|done].
      * split; [done|by intros [? ?]].
    + rewrite Hdom. apply elem_of_list_to_set.
  - intros n1 n2 [i Hi]%list_elem_of_lookup_1 [j Hj]%list_elem_of_lookup_1 Hn.
    rewrite (Hord _ _ Hi), (Hord _ _ Hj). intros E.
    assert (i = j) as -> by lia. congruence.
  - intros i j n1 n2 Hi Hj Hlt. rewrite (Hord _ _ Hi), (Hord _ _ Hj). lia.
  - intros k. split.
    + intros Hk.
      destruct (lookup_lt_is_Some_2 names (Z.to_nat k)) as [n Hn]; [lia|].
      exists n. split; [by eapply list_elem_of_lookup_2|].
      rewrite (Hord _ _ Hn). lia.
    + intros (n & [i Hi]%list_elem_of_lookup_1 & <-).
      rewrite (Hord _ _ Hi). apply lookup_lt_Some in Hi. lia.
Qed.

(** ** Names the sentinel is for *)

(** While at most 1000 names are registered, each once, the sentinel is
    larger than every assigned insert order. *)
Lemma sentinel_above_assigned_orders h cs r h0 n :
  newKeywordRegistry h = (r, h0) →
  NoDup (registered_names cs) →
  (length (registered_names cs) ≤ 1000)%nat →
  n ∈ registered_names cs →
  GetKeywordInsertOrder r n (do_calls r cs h0) < 1000.
Proof.
  intros Hnew Hnd Hlen [i Hi]%list_elem_of_lookup_1.
  destruct (newKeywordRegistry_empty _ _ _ Hnew) as (HR & _ & HIO & Hne).
  destruct (do_calls_tables r cs h0 HR HIO Hne Hnd) as (_ & _ & Hidx).
  unfold GetKeywordInsertOrder. rewrite (Hidx i n Hi).
  apply lookup_lt_Some in Hi. lia.
Qed.

(** C7 (as the code has it): on a registry whose calls to [RegisterKeyword] and
    [SetKeywordOrder] never named [name], [GetKeywordOrder(name)] is 1 and
    [GetKeywordInsertOrder(name)] is the sentinel 1000.  The sentinel puts
    [name] after every registered name ("evaluate last") as long as no more
    than 1000 names are registered, each once. *)
Theorem defaults_of_unmentioned_name h cs name r h0 :
  newKeywordRegistry h = (r, h0) →
  name ∉ call_name <$> cs →
  let h' := do_calls r cs h0 in
  GetKeywordOrder r name h' = 1 ∧
  GetKeywordInsertOrder r name h' = 1000 ∧
  (NoDup (registered_names cs) →
   (length (registered_names cs) ≤ 1000)%nat →
   ∀ n, n ∈ registered_names cs →
        GetKeywordInsertOrder r n h' < GetKeywordInsertOrder r name h').
Proof.
  intros Hnew Hname h'.
  destruct (newKeywordRegistry_empty _ _ _ Hnew) as (_ & HO & HIO & _).
  assert (GetKeywordInsertOrder r name h' = 1000) as Hsentinel.
  { unfold GetKeywordInsertOrder, h'. rewrite do_calls_ints_other by done.
    by rewrite HIO, lookup_empty. }
  split_and!; [|done|].
  - unfold GetKeywordOrder, h'. rewrite do_calls_ints_other by done.
    by rewrite HO, lookup_empty.
  - intros Hnd Hlen n Hn. rewrite Hsentinel.
    by eapply sentinel_above_assigned_orders.
Qed.

(** ** Copy *)

Lemma same_lookups_of_maps r1 h1 r2 h2 :
  makers_at h1 (keywordRegistry r1) = makers_at h2 (keywordRegistry r2) →
  ints_at h1 (keywordOrder r1) = ints_at h2 (keywordOrder r2) →
  ints_at h1 (keywordInsertOrder r1) = ints_at h2 (keywordInsertOrder r2) →
  same_lookups r1 h1 r2 h2.
Proof.
  intros HR HO HIO name.
  unfold GetKeyword, IsRegisteredKeyword, GetKeywordOrder, GetKeywordInsertOrder.
  by rewrite HR, HO, HIO.
Qed.

(** The loop [for k, v := range src { dst[k] = v }] writes to [dst] only,
    and leaves in it the entries of [src] on top of what it held. *)
Lemma range_copy_makers_spec src dst h :
  let h' := range_copy_makers src dst h in
  nextLoc h' = nextLoc h ∧
  intMaps h' = intMaps h ∧
  (∀ l, l ≠ dst → makerMaps h' !! l = makerMaps h !! l) ∧
  makers_at h' dst = makers_at h src ∪ makers_at h dst.
Proof.
  unfold range_copy_makers.
  apply (map_fold_weak_ind (λ (acc : Heap) m,
    nextLoc acc = nextLoc h ∧
    intMaps acc = intMaps h ∧
    (∀ l, l ≠ dst → makerMaps acc !! l = makerMaps h !! l) ∧
    makers_at acc dst = m ∪ makers_at h dst)).
  - split_and!; try done. by rewrite (left_id_L ∅ (∪)).
  - intros k v m acc _ (Hn & Hi & Hother & Hdst). split_and!; simpl; try done.
    + intros l Hl. rewrite lookup_insert_ne by done. by apply Hother.
    + rewrite makers_at_store_maker, decide_True by done.
      by rewrite Hdst, insert_union_l.
Qed.

Lemma range_copy_ints_spec src dst h :
  let h' := range_copy_ints src dst h in
  nextLoc h' = nextLoc h ∧
  makerMaps h' = makerMaps h ∧
  (∀ l, l ≠ dst → intMaps h' !! l = intMaps h !! l) ∧
  ints_at h' dst = ints_at h src ∪ ints_at h dst.
Proof.
  unfold range_copy_ints.
  apply (map_fold_weak_ind (λ (acc : Heap) m,
    nextLoc acc = nextLoc h ∧
    makerMaps acc = makerMaps h ∧
    (∀ l, l ≠ dst → intMaps acc !! l = intMaps h !! l) ∧
    ints_at acc dst = m ∪ ints_at h dst)).
  - split_and!; try done. by rewrite (left_id_L ∅ (∪)).
  - intros k v m acc _ (Hn & Hi & Hother & Hdst). split_and!; simpl; try done.
    + intros l Hl. rewrite lookup_insert_ne by done. by apply Hother.
    + rewrite ints_at_store_int, decide_True by done.
      by rewrite Hdst, insert_union_l.
Qed.

Lemma makers_at_ext h1 h2 l :
  makerMaps h1 !! l = makerMaps h2 !! l → makers_at h1 l = makers_at h2 l.
Proof. unfold makers_at. by intros ->. Qed.

Lemma ints_at_ext h1 h2 l :
  intMaps h1 !! l = intMaps h2 !! l → ints_at h1 l = ints_at h2 l.
Proof. unfold ints_at. by intros ->. Qed.

(** [Copy] allocates three maps beyond every live one, fills them with
    the entries of the source maps, and touches no live map. *)
Lemma Copy_spec h r c h' :
  Copy r h = (c, h') →
  c = {| keywordRegistry := nextLoc h;
         keywordOrder := S (nextLoc h);
         keywordInsertOrder := S (S (nextLoc h)) |} ∧
  nextLoc h' = S (S (S (nextLoc h))) ∧
  (∀ l, (l < nextLoc h)%nat →
        makerMaps h' !! l = makerMaps h !! l ∧ intMaps h' !! l = intMaps h !! l) ∧
  ((keywordRegistry r < nextLoc h)%nat →
     makers_at h' (keywordRegistry c) = makers_at h (keywordRegistry r)) ∧
  ((keywordOrder r < nextLoc h)%nat →
     ints_at h' (keywordOrder c) = ints_at h (keywordOrder r)) ∧
  ((keywordInsertOrder r < nextLoc h)%nat →
     ints_at h' (keywordInsertOrder c) = ints_at h (keywordInsertOrder r)).
Proof.
  unfold Copy.
  cbn [make_makers make_ints nextLoc makerMaps intMaps
       keywordRegistry keywordOrder keywordInsertOrder].
  set (h3 := mkHeap _ _ _).
  set (l1 := nextLoc h) in *. set (l2 := S l1) in *. set (l3 := S l2) in *.
  intros [= <- <-].
  destruct (range_copy_makers_spec (keywordRegistry r) l1 h3)
    as (N4 & I4 & O4 & D4).
  set (h4 := range_copy_makers (keywordRegistry r) l1 h3) in *.
  destruct (range_copy_ints_spec (keywordOrder r) l2 h4) as (N5 & M5 & O5 & D5).
  set (h5 := range_copy_ints (keywordOrder r) l2 h4) in *.
  destruct (range_copy_ints_spec (keywordInsertOrder r) l3 h5)
    as (N6 & M6 & O6 & D6).
  set (h6 := range_copy_ints (keywordInsertOrder r) l3 h5) in *.
  assert (makers_at h3 l1 = ∅) as E1.
  { unfold makers_at, h3. simpl. by rewrite lookup_insert_eq. }
  assert (ints_at h3 l2 = ∅) as E2.
  { unfold ints_at, h3. simpl.
    rewrite lookup_insert_ne by (unfold l1, l2; lia).
    by rewrite lookup_insert_eq. }
  assert (ints_at h3 l3 = ∅) as E3.
  { unfold ints_at, h3. simpl. by rewrite lookup_insert_eq. }
  assert (∀ l, (l < l1)%nat → makerMaps h3 !! l = makerMaps h !! l) as Hm3.
  { intros l Hl. unfold h3. simpl. by rewrite lookup_insert_ne by lia. }
  assert (∀ l, (l < l1)%nat → intMaps h3 !! l = intMaps h !! l) as Hi3.
  { intros l Hl. unfold h3. simpl.
    by rewrite !lookup_insert_ne by (unfold l1, l2 in *; lia). }
  split_and!; cbn [keywordRegistry keywordOrder keywordInsertOrder].
  - done.
  - rewrite N6, N5, N4. done.
  - intros l Hl. split.
    + rewrite M6, M5, O4 by lia. by apply Hm3.
    + rewrite O6, O5, I4 by (unfold l3, l2; lia). by apply Hi3.
  - intros Hl. rewrite (makers_at_ext h6 h4) by (by rewrite M6, M5).
    rewrite D4, E1, (right_id_L ∅ (∪)). apply makers_at_ext. by apply Hm3.
  - intros Hl. rewrite (ints_at_ext h6 h5) by (apply O6; unfold l3; lia).
    rewrite D5.
    rewrite (ints_at_ext h4 h3 l2) by (by rewrite I4).
    rewrite E2, (right_id_L ∅ (∪)).
    rewrite (ints_at_ext h4 h3) by (by rewrite I4).
    apply ints_at_ext. by apply Hi3.
  - intros Hl. rewrite D6.
    rewrite (ints_at_ext h5 h3 l3).
    2:{ rewrite O5 by (unfold l3; lia). by rewrite I4. }
    rewrite E3, (right_id_L ∅ (∪)).
    rewrite (ints_at_ext h5 h3).
    2:{ rewrite O5 by (unfold l2; lia). by rewrite I4. }
    apply ints_at_ext. by apply Hi3.
Qed.

(** ** Calls on one registry do not reach the maps of a separate one *)

Lemma do_call_frame r1 r2 h (x : Call) :
  separate r1 r2 →
  makers_at (do_call r1 h x) (keywordRegistry r2) = makers_at h (keywordRegistry r2) ∧
  ints_at (do_call r1 h x) (keywordOrder r2) = ints_at h (keywordOrder r2) ∧
  ints_at (do_call r1 h x) (keywordInsertOrder r2) = ints_at h (keywordInsertOrder r2).
Proof.
  intros (HR & HOO & HOI & HIO & HII). destruct x as [p mk|p o]; simpl.
  - rewrite RegisterKeyword_makers, !RegisterKeyword_ints.
    by rewrite !decide_False by done.
  - rewrite SetKeywordOrder_makers, !SetKeywordOrder_ints.
    by rewrite !decide_False by done.
Qed.

Lemma do_calls_frame r1 r2 cs h :
  separate r1 r2 →
  same_lookups r2 (do_calls r1 cs h) r2 h.
Proof.
  intros Hsep. apply same_lookups_of_maps;
    (induction cs as [|x cs IH] using rev_ind; [done|]);
    rewrite do_calls_snoc;
    destruct (do_call_frame r1 r2 (do_calls r1 cs h) x Hsep) as (E1 & E2 & E3);
    congruence.
Qed.

Lemma separate_sym r1 r2 : separate r1 r2 → separate r2 r1.
Proof. intros (? & ? & ? & ? & ?). unfold separate. split_and!; congruence. Qed.

Lemma registry_ok_live h r :
  heap_ok h → registry_ok h r →
  (keywordRegistry r < nextLoc h)%nat ∧
  (keywordOrder r < nextLoc h)%nat ∧
  (keywordInsertOrder r < nextLoc h)%nat.
Proof.
  intros [Hm Hi] ([m1 H1] & [m2 H2] & [m3 H3] & _).
  split_and!; [exact (Hm _ _ H1)|exact (Hi _ _ H2)|exact (Hi _ _ H3)].
Qed.

(** C3: [Copy] returns a registry whose four lookups agree with those of
    the source at copy time; the copy shares no map with the source, so
    any later sequence of [RegisterKeyword] and [SetKeywordOrder] calls on
    the copy leaves every lookup on the source as it was, and any such
    sequence on the source leaves every lookup on the copy as it was. *)
Theorem Copy_is_independent h r c h' :
  heap_ok h → registry_ok h r →
  Copy r h = (c, h') →
  same_lookups c h' r h ∧
  same_lookups r h' r h ∧
  separate c r ∧
  (∀ cs h'', same_lookups r (do_calls c cs h'') r h'') ∧
  (∀ cs h'', same_lookups c (do_calls r cs h'') c h'').
Proof.
  intros Hh Hr Hcopy.
  destruct (registry_ok_live h r Hh Hr) as (L1 & L2 & L3).
  destruct (Copy_spec h r c h' Hcopy) as (Hc & _ & Hold & C1 & C2 & C3).
  assert (separate c r) as Hsep.
  { subst c. unfold separate. simpl. lia. }
  split_and!.
  - apply same_lookups_of_maps; auto.
  - apply same_lookups_of_maps;
      [apply makers_at_ext|apply ints_at_ext..]; by apply Hold.
  - done.
  - intros cs h''. by apply do_calls_frame.
  - intros cs h''. by apply do_calls_frame, separate_sym.
Qed.

(** ** Rendering a value *)

Lemma has_prefix_occurs old s : occurs old s = false → has_prefix old s = false.
Proof. destruct s; simpl; by intros [? ?]%orb_false_iff. Qed.

(** Where [old] does not occur, [bytes.Replace] returns the text as it
    is. *)
Lemma replace_from_no_occurrence old new s :
  occurs old s = false → replace_from old new 0 s = s.
Proof.
  induction s as [|b s IH]; [done|]. intros Hocc.
  cbn [replace_from]. rewrite (has_prefix_occurs _ _ Hocc).
  f_equal. apply IH. simpl in Hocc. by apply orb_false_iff in Hocc as [_ ?].
Qed.

Lemma slice_to_in_range bt n :
  0 ≤ n ≤ len bt → slice_to bt n = Returned (take (Z.to_nat n) bt).
Proof.
  intros [H0 Hn]. unfold slice_to.
  rewrite (proj2 (Z.ltb_ge n 0)), (proj2 (Z.ltb_ge (len bt) n)) by lia. done.
Qed.

Lemma slice_to_negative bt n :
  n < 0 → slice_to bt n = Panicked (SliceBoundsOutOfRange n).
Proof. intros Hn. unfold slice_to. by rewrite (proj2 (Z.ltb_lt n 0)) by lia. Qed.

Lemma len_nonneg bt : 0 ≤ len bt.
Proof. unfold len. lia. Qed.

(** The three ways [InvalidValueString] ends once the value is
    serialised; [bt'] is the text after the replacement step. *)
Lemma InvalidValueString_cases g data bt :
  json_Marshal data = Some bt →
  let bt' := bytes_ReplaceAll bt [x0a; x0d] [x20] in
  let n := MaxKeywordErrStringLen g in
  (n = -1 ∨ len bt' ≤ n →
     InvalidValueString json_Marshal g data =
       Returned (String.string_of_list_byte bt')) ∧
  (0 ≤ n < len bt' →
     InvalidValueString json_Marshal g data =
       Returned (String.string_of_list_byte
                   (take (Z.to_nat n) bt' ++ String.list_byte_of_string "..."))) ∧
  (n < -1 →
     InvalidValueString json_Marshal g data = Panicked (SliceBoundsOutOfRange n)).
Proof.
  intros Hm bt' n. unfold InvalidValueString. rewrite Hm. fold bt' n.
  pose proof (len_nonneg bt') as Hlen. split_and!.
  - intros [->|Hle]; [done|].
    rewrite (proj2 (Z.ltb_ge n (len bt'))) by lia. by rewrite andb_false_r.
  - intros [H0 Hlt].
    rewrite (proj2 (Z.eqb_neq n (-1))), (proj2 (Z.ltb_lt n (len bt'))) by lia.
    simpl. by rewrite slice_to_in_range by lia.
  - intros Hneg.
    rewrite (proj2 (Z.eqb_neq n (-1))), (proj2 (Z.ltb_lt n (len bt'))) by lia.
    simpl. by rewrite slice_to_negative by lia.
Qed.

Lemma has_line_break_cons b s :
  has_line_break (b :: s) = false →
  Byte.eqb x0a b = false ∧ Byte.eqb x0d b = false ∧ has_line_break s = false.
Proof.
  unfold has_line_break. cbn [existsb].
  intros [[? ?]%orb_false_iff ?]%orb_false_iff. done.
Qed.

(** A text without line-break bytes holds no newline followed by a
    carriage return. *)
Lemma has_line_break_occurs s :
  has_line_break s = false → occurs [x0a; x0d] s = false.
Proof.
  induction s as [|b s IH]; [done|].
  intros (Hlf & _ & Hs)%has_line_break_cons.
  cbn [occurs has_prefix]. rewrite Hlf. by apply IH.
Qed.



(** C5 (as the code has it): for every value, if [MaxKeywordErrStringLen]
    is not negative and the serialised text is longer than it,
    [InvalidValueString] returns the prefix of that many bytes followed by
    ["..."]; if [MaxKeywordErrStringLen] is -1 it returns the full text
    unmodified.  The limit is 20 unless it is reassigned. *)
Theorem InvalidValueString_truncates g data bt :
  emits_no_line_break json_Marshal →
  json_Marshal data = Some bt →
  let n := MaxKeywordErrStringLen g in
  (0 ≤ n → n < len bt →
     InvalidValueString json_Marshal g data =
       Returned (String.string_of_list_byte
                   (take (Z.to_nat n) bt ++ String.list_byte_of_string "..."))) ∧
  (n = -1 →
     InvalidValueString json_Marshal g data =
       Returned (String.string_of_list_byte bt)) ∧
  MaxKeywordErrStringLen initial_pkgvars = 20.
Proof.
  intros Henc Hm n.
  pose proof (has_line_break_occurs bt (Henc data bt Hm)) as Hocc.
  destruct (InvalidValueString_cases g data bt Hm) as (Hfull & Hcut & _).
  unfold bytes_ReplaceAll in *.
  rewrite (replace_from_no_occurrence _ _ _ Hocc) in *.
  split_and!; [|by auto|done].
  intros H0 Hn. apply Hcut. by split.
Qed.


(** C9: when serialising the value fails, [InvalidValueString] returns
    the empty string; the failure reaches the caller neither as an error
    nor as a panic, whatever the configured limit. *)
Theorem InvalidValueString_marshal_failure g data :
  json_Marshal data = None →
  InvalidValueString json_Marshal g data = Returned EmptyString.
Proof. intros Hm. unfold InvalidValueString. by rewrite Hm. Qed.

(** C10: with [MaxKeywordErrStringLen] equal to -1 or not negative,
    [InvalidValueString] returns for every value (its slice bound stays
    within the text); with any other negative setting it takes the
    truncation branch for every value that serialises and panics on the
    negative slice bound, so it is total only under that precondition. *)
Theorem InvalidValueString_total_only_for_valid_limit g :
  let n := MaxKeywordErrStringLen g in
  (n = -1 ∨ 0 ≤ n →
     ∀ data, ∃ s, InvalidValueString json_Marshal g data = Returned s) ∧
  (n < -1 →
     ∀ data bt, json_Marshal data = Some bt →
       InvalidValueString json_Marshal g data =
         Panicked (SliceBoundsOutOfRange n)) ∧
  ((∃ data bt, json_Marshal data = Some bt) →
   (∀ data, ∃ s, InvalidValueString json_Marshal g data = Returned s) →
     n = -1 ∨ 0 ≤ n).
Proof.
  intros n. split_and!.
  - intros Hn data. destruct (json_Marshal data) as [bt|] eqn:Hm.
    + destruct (InvalidValueString_cases g data bt Hm) as (Hfull & Hcut & _).
      fold n in Hfull, Hcut.
      set (bt' := bytes_ReplaceAll bt [x0a; x0d] [x20]) in *.
      destruct (decide (n = -1 ∨ len bt' ≤ n)) as [Hc|Hc].
      * eexists. by apply Hfull.
      * eexists. apply Hcut. lia.
    + eexists. by apply InvalidValueString_marshal_failure.
  - intros Hn data bt Hm.
    destruct (InvalidValueString_cases g data bt Hm) as (_ & _ & Hneg).
    by apply Hneg.
  - intros (data & bt & Hm) Htotal.
    destruct (decide (n < -1)) as [Hn|Hn]; [|lia].
    destruct (Htotal data) as [s Hs].
    destruct (InvalidValueString_cases g data bt Hm) as (_ & _ & Hneg).
    rewrite (Hneg Hn) in Hs. discriminate.
Qed.

(** ** Rendering a KeyError *)

(** C6: [Error()] renders "path: value message", the value rendered by
    [InvalidValueString], when the path is not empty and a value is
    present; "path: message" when only the path is not empty; and the bare
    message otherwise.  In particular [KeyError{Message:"bad"}] renders as
    "bad". *)
Theorem Error_rendering g (v : KeyError) :
  (PropertyPath v ≠ EmptyString → InvalidValue v ≠ None →
     (∀ val, InvalidValueString json_Marshal g (InvalidValue v) = Returned val →
             Error json_Marshal g v =
               Returned (PropertyPath v +:+ ": " +:+ val +:+ " " +:+ Message v)) ∧
     (∀ p, InvalidValueString json_Marshal g (InvalidValue v) = Panicked p →
           Error json_Marshal g v = Panicked p)) ∧
  (PropertyPath v ≠ EmptyString → InvalidValue v = None →
     Error json_Marshal g v = Returned (PropertyPath v +:+ ": " +:+ Message v)) ∧
  (PropertyPath v = EmptyString →
     Error json_Marshal g v = Returned (Message v)) ∧
  Error json_Marshal g
    {| PropertyPath := EmptyString; InvalidValue := None; Message := "bad" |} =
    Returned "bad"%string.
Proof.
  unfold Error. split_and!.
  - intros Hp Hv.
    rewrite !bool_decide_eq_true_2 by done. simpl.
    split; intros ? ->; done.
  - intros Hp Hv.
    rewrite (bool_decide_eq_true_2 _ Hp).
    rewrite bool_decide_eq_false_2 by (by intros ?). done.
  - intros Hp. rewrite !(bool_decide_eq_false_2 (PropertyPath v ≠ EmptyString)); [done|].
    by intros ?.
  - done.
Qed.

(** ** Every store this file builds is well formed *)

Lemma store_maker_live l k v h l' :
  is_Some (makerMaps h !! l) →
  is_Some (makerMaps (store_maker l k v h) !! l') ↔ is_Some (makerMaps h !! l').
Proof.
  intros Hl. simpl. destruct (decide (l = l')) as [->|Hne].
  - rewrite lookup_insert_eq. split; [done|by eauto].
  - by rewrite lookup_insert_ne.
Qed.

Lemma store_int_live l k z h l' :
  is_Some (intMaps h !! l) →
  is_Some (intMaps (store_int l k z h) !! l') ↔ is_Some (intMaps h !! l').
Proof.
  intros Hl. simpl. destruct (decide (l = l')) as [->|Hne].
  - rewrite lookup_insert_eq. split; [done|by eauto].
  - by rewrite lookup_insert_ne.
Qed.

Lemma same_shape_refl h : same_shape h h.
Proof. by split_and!. Qed.

Lemma same_shape_trans h1 h2 h3 :
  same_shape h1 h2 → same_shape h2 h3 → same_shape h1 h3.
Proof.
  intros (N1 & M1 & I1) (N2 & M2 & I2). split_and!.
  - congruence.
  - intros l. by rewrite M1.
  - intros l. by rewrite I1.
Qed.

Lemma same_shape_ok h1 h2 r :
  same_shape h1 h2 →
  (heap_ok h2 → heap_ok h1) ∧ (registry_ok h2 r → registry_ok h1 r).
Proof.
  intros (N & M & I). split.
  - intros [Hm Hi]. split; intros l x Hx; rewrite N.
    + destruct (proj1 (M l)) as [y Hy]; [by eauto|]. exact (Hm _ _ Hy).
    + destruct (proj1 (I l)) as [y Hy]; [by eauto|]. exact (Hi _ _ Hy).
  - intros (H1 & H2 & H3 & H4). split_and!; [by apply M|by apply I..|done].
Qed.

Lemma store_maker_shape l k v h :
  is_Some (makerMaps h !! l) → same_shape (store_maker l k v h) h.
Proof. intros Hl. split_and!; [done| |done]. intros l'. by apply store_maker_live. Qed.

Lemma store_int_shape l k z h :
  is_Some (intMaps h !! l) → same_shape (store_int l k z h) h.
Proof. intros Hl. split_and!; [done..|]. intros l'. by apply store_int_live. Qed.

Lemma do_call_shape r h (x : Call) :
  registry_ok h r → same_shape (do_call r h x) h.
Proof.
  intros (H1 & H2 & H3 & _). destruct x as [p mk|p o]; simpl.
  - unfold RegisterKeyword.
    eapply same_shape_trans; [apply store_int_shape|by apply store_maker_shape].
    by apply (store_maker_shape _ p mk h H1).
  - by apply store_int_shape.
Qed.

Lemma do_calls_shape r cs h :
  registry_ok h r → same_shape (do_calls r cs h) h.
Proof.
  intros Hr. induction cs as [|x cs IH] using rev_ind.
  - apply same_shape_refl.
  - rewrite do_calls_snoc. eapply same_shape_trans; [|exact IH].
    apply do_call_shape. by apply (same_shape_ok _ _ r IH).
Qed.

Lemma range_copy_makers_shape src dst h :
  is_Some (makerMaps h !! dst) → same_shape (range_copy_makers src dst h) h.
Proof.
  intros Hdst. unfold range_copy_makers.
  apply (map_fold_weak_ind (λ (acc : Heap) (_ : gmap string Maker), same_shape acc h)).
  - apply same_shape_refl.
  - intros k v m acc _ IH. eapply same_shape_trans; [|exact IH].
    apply store_maker_shape. by apply IH.
Qed.

Lemma range_copy_ints_shape src dst h :
  is_Some (intMaps h !! dst) → same_shape (range_copy_ints src dst h) h.
Proof.
  intros Hdst. unfold range_copy_ints.
  apply (map_fold_weak_ind (λ (acc : Heap) (_ : gmap string Z), same_shape acc h)).
  - apply same_shape_refl.
  - intros k v m acc _ IH. eapply same_shape_trans; [|exact IH].
    apply store_int_shape. by apply IH.
Qed.

(** The three allocations that open both the registry literal and
    [Copy]. *)
Lemma three_makes_ok h :
  heap_ok h →
  let h3 := {| makerMaps := <[nextLoc h := ∅]> (makerMaps h);
               intMaps := <[S (S (nextLoc h)) := ∅]>
                            (<[S (nextLoc h) := ∅]> (intMaps h));
               nextLoc := S (S (S (nextLoc h))) |} in
  heap_ok h3 ∧
  registry_ok h3 {| keywordRegistry := nextLoc h;
                    keywordOrder := S (nextLoc h);
                    keywordInsertOrder := S (S (nextLoc h)) |} ∧
  ∀ r, registry_ok h r → registry_ok h3 r.
Proof.
  intros [Hm Hi] h3. split_and!.
  - split; intros l x; simpl.
    + intros [[<- _]|[_ Hx]]%lookup_insert_Some; [lia|].
      specialize (Hm _ _ Hx). simpl in Hm. lia.
    + intros [[<- _]|[_ [[<- _]|[_ Hx]]%lookup_insert_Some]]%lookup_insert_Some;
        [lia..|].
      specialize (Hi _ _ Hx). simpl in Hi. lia.
  - unfold registry_ok. simpl. split_and!.
    + by rewrite lookup_insert_eq.
    + rewrite lookup_insert_ne by lia. by rewrite lookup_insert_eq.
    + by rewrite lookup_insert_eq.
    + lia.
  - intros r ([m1 H1] & [m2 H2] & [m3 H3] & Hne).
    pose proof (Hm _ _ H1). pose proof (Hi _ _ H2). pose proof (Hi _ _ H3).
    simpl in *. unfold registry_ok. simpl. split_and!; [| | |done].
    + rewrite lookup_insert_ne by lia. by eauto.
    + rewrite !lookup_insert_ne by lia. by eauto.
    + rewrite !lookup_insert_ne by lia. by eauto.
Qed.

Lemma newKeywordRegistry_ok h r h0 :
  heap_ok h → newKeywordRegistry h = (r, h0) →
  heap_ok h0 ∧ registry_ok h0 r ∧ ∀ r', registry_ok h r' → registry_ok h0 r'.
Proof.
  intros Hh. unfold newKeywordRegistry.
  cbn [make_makers make_ints nextLoc makerMaps intMaps].
  intros [= <- <-]. by apply three_makes_ok.
Qed.

Lemma do_calls_ok r cs h :
  heap_ok h → registry_ok h r →
  heap_ok (do_calls r cs h) ∧
  ∀ r', registry_ok h r' → registry_ok (do_calls r cs h) r'.
Proof.
  intros Hh Hr. pose proof (do_calls_shape r cs h Hr) as Hs. split.
  - by apply (same_shape_ok _ _ r Hs).
  - intros r' Hr'. by apply (same_shape_ok _ _ r' Hs).
Qed.

Lemma Copy_ok h r c h' :
  heap_ok h → registry_ok h r → Copy r h = (c, h') →
  heap_ok h' ∧ registry_ok h' c ∧ ∀ r', registry_ok h r' → registry_ok h' r'.
Proof.
  intros Hh Hr. unfold Copy.
  cbn [make_makers make_ints nextLoc makerMaps intMaps
       keywordRegistry keywordOrder keywordInsertOrder].
  set (h3 := mkHeap _ _ _). intros [= <- <-].
  destruct (three_makes_ok h Hh) as (Hh3 & Hc3 & Hr3). fold h3 in Hh3, Hc3, Hr3.
  destruct Hc3 as (L1 & L2 & L3 & Lne). simpl in L1, L2, L3.
  set (h4 := range_copy_makers (keywordRegistry r) (nextLoc h) h3).
  assert (same_shape h4 h3) as S4 by (by apply range_copy_makers_shape).
  set (h5 := range_copy_ints (keywordOrder r) (S (nextLoc h)) h4).
  assert (same_shape h5 h4) as S5.
  { apply range_copy_ints_shape. by apply S4. }
  set (h6 := range_copy_ints (keywordInsertOrder r) (S (S (nextLoc h))) h5).
  assert (same_shape h6 h5) as S6.
  { apply range_copy_ints_shape. apply S5. by apply S4. }
  assert (same_shape h6 h3) as S by eauto using same_shape_trans.
  split_and!.
  - by apply (same_shape_ok _ _ r S).
  - apply (same_shape_ok _ _ _ S). by split_and!.
  - intros r' Hr'. apply (same_shape_ok _ _ _ S). by apply Hr3.
Qed.

End Facts.

(** * The theorems at concrete inputs *)

Import Sample.

(** C1 at a failing input: "type" was given insert order 0 at its first
    registration; after "enum" is registered and "type" is registered
    again, the code reports insert order 2 for it, the value the next new
    name will also get. *)
Lemma RegisterKeyword_again_changes_insert_order :
  IsRegisteredKeyword r0 "type" h2 = true ∧
  GetKeywordInsertOrder r0 "type" h2 = 0 ∧
  GetKeywordInsertOrder r0 "type" (RegisterKeyword r0 "type" (failing "again") h2) = 2 ∧
  GetKeywordInsertOrder r0 "type" (RegisterKeyword r0 "type" (failing "again") h2) ≠
    GetKeywordInsertOrder r0 "type" h2.
Proof. vm_compute. split_and!; [reflexivity..|discriminate]. Qed.

(** "type", "enum" and "const", registered once each, get 0, 1 and 2. *)
Lemma insert_orders_of_names_registered_once_witness :
  newKeywordRegistry empty_store = (r0, h0) ∧
  NoDup (registered_names calls_once) ∧
  GetKeywordInsertOrder r0 "type" (do_calls r0 calls_once h0) = 0 ∧
  GetKeywordInsertOrder r0 "enum" (do_calls r0 calls_once h0) = 1 ∧
  GetKeywordInsertOrder r0 "const" (do_calls r0 calls_once h0) = 2 ∧
  IsRegisteredKeyword r0 "const" (do_calls r0 calls_once h0) = true.
Proof.
  assert (newKeywordRegistry empty_store = (r0, h0)) as Hnew
    by (vm_compute; reflexivity).
  assert (NoDup (registered_names calls_once)) as Hnd by by_evaluation.
  pose proof (insert_orders_of_names_registered_once
                empty_store calls_once r0 h0 Hnew Hnd) as W.
  cbv zeta in W. destruct W as (Hreg & Hidx & _).
  split_and!; [exact Hnew|exact Hnd|..].
  - exact (Hidx 0%nat "type"%string eq_refl).
  - exact (Hidx 1%nat "enum"%string eq_refl).
  - exact (Hidx 2%nat "const"%string eq_refl).
  - apply Hreg. by_evaluation.
Defined.

(** C2 at a failing input: after "type", "enum", "type" again and
    "const", the code reports the same insert order for the distinct
    registered names "type" and "const", and a larger one for "type",
    registered first, than for "enum". *)
Lemma insert_order_collision_after_reregistration :
  let h := do_calls r0 calls_twice h0 in
  "type"%string ≠ "const"%string ∧
  IsRegisteredKeyword r0 "type" h = true ∧
  IsRegisteredKeyword r0 "const" h = true ∧
  GetKeywordInsertOrder r0 "type" h = GetKeywordInsertOrder r0 "const" h ∧
  GetKeywordInsertOrder r0 "enum" h < GetKeywordInsertOrder r0 "type" h.
Proof. vm_compute. split_and!; [discriminate|reflexivity..]. Qed.

(** Copying the registry that holds "type" and "enum", then changing
    either side. *)
Lemma Copy_is_independent_witness :
  heap_ok h2 ∧ registry_ok h2 r0 ∧
  same_lookups copied.1 copied.2 r0 h2 ∧
  same_lookups r0 (do_calls copied.1 calls_later copied.2) r0 copied.2 ∧
  same_lookups copied.1 (do_calls r0 calls_later copied.2) copied.1 copied.2.
Proof.
  assert (heap_ok h2) as Hh by by_evaluation.
  assert (registry_ok h2 r0) as Hr by by_evaluation.
  assert (Copy r0 h2 = (copied.1, copied.2)) as Hc by (vm_compute; reflexivity).
  destruct (Copy_is_independent h2 r0 copied.1 copied.2 Hh Hr Hc)
    as (Hsame & _ & _ & Hsrc & Hcopy).
  split_and!; [exact Hh|exact Hr|exact Hsame|apply Hsrc|apply Hcopy].
Defined.

(** A vendor extension nobody registered. *)
Lemma GetKeyword_unregistered_witness :
  IsRegisteredKeyword r0 "x-vendor" h2 = false ∧
  GetKeyword r0 "x-vendor" h2 = NewVoid () ∧
  (∀ st data, Errs (ValidateKeyword (GetKeyword r0 "x-vendor" h2) st data) = Errs st) ∧
  (∀ pointer uri, Resolve (GetKeyword r0 "x-vendor" h2) pointer uri = None).
Proof.
  assert (IsRegisteredKeyword r0 "x-vendor" h2 = false) as H
    by (vm_compute; reflexivity).
  split; [exact H|]. exact (GetKeyword_unregistered r0 "x-vendor" h2 H).
Defined.

(** "format" is named by none of the calls. *)
Lemma defaults_of_unmentioned_name_witness :
  newKeywordRegistry empty_store = (r0, h0) ∧
  ("format"%string ∉ (call_name <$> calls_once)) ∧
  GetKeywordOrder r0 "format" (do_calls r0 calls_once h0) = 1 ∧
  GetKeywordInsertOrder r0 "format" (do_calls r0 calls_once h0) = 1000 ∧
  GetKeywordInsertOrder r0 "const" (do_calls r0 calls_once h0) <
    GetKeywordInsertOrder r0 "format" (do_calls r0 calls_once h0).
Proof.
  assert (newKeywordRegistry empty_store = (r0, h0)) as Hnew
    by (vm_compute; reflexivity).
  assert ("format"%string ∉ (call_name <$> calls_once)) as Hn by by_evaluation.
  pose proof (defaults_of_unmentioned_name
                empty_store calls_once "format" r0 h0 Hnew Hn) as W.
  cbv zeta in W. destruct W as (HO & HIO & Hlast).
  split_and!; [exact Hnew|exact Hn|exact HO|exact HIO|].
  apply Hlast; by_evaluation.
Defined.

(** C7 fails as stated: with 1002 names registered once each, the last
    one has insert order 1001, above the 1000 an unregistered name reads:
    the sentinel is not the largest tie-break and the unregistered name
    would not come last. *)
Lemma sentinel_exceeded_by_the_1002nd_name :
  let h := do_calls r0 calls_many h0 in
  ("format"%string ∉ (call_name <$> calls_many)) ∧
  IsRegisteredKeyword r0 "k1001" h = true ∧
  GetKeywordInsertOrder r0 "format" h = 1000 ∧
  GetKeywordInsertOrder r0 "k1001" h = 1001 ∧
  GetKeywordInsertOrder r0 "format" h < GetKeywordInsertOrder r0 "k1001" h.
Proof.
  cbv zeta. split; [by_evaluation|]. vm_compute. split_and!; reflexivity.
Qed.

(** The sample serializer meets what is assumed of [json.Marshal]: digits,
    a sign and [null] are no line breaks. *)
Lemma has_line_break_String c t :
  has_line_break (String.list_byte_of_string (String c t)) =
    (Byte.eqb x0a (Ascii.byte_of_ascii c) || Byte.eqb x0d (Ascii.byte_of_ascii c))
    || has_line_break (String.list_byte_of_string t).
Proof. reflexivity. Qed.

Lemma digits_hold_no_line_break d :
  has_line_break (String.list_byte_of_string (NilEmpty.string_of_uint d)) = false.
Proof.
  induction d as [|d IH|d IH|d IH|d IH|d IH|d IH|d IH|d IH|d IH|d IH];
    cbn [NilEmpty.string_of_uint]; [reflexivity|..];
    rewrite has_line_break_String, IH; reflexivity.
Qed.

Lemma marshal_emits_no_line_break : emits_no_line_break marshal.
Proof.
  intros [[n|]|] bt; simpl; intros [= <-]; [|reflexivity].
  assert (∀ d, has_line_break
                 (String.list_byte_of_string (NilZero.string_of_uint d)) = false)
    as Hu.
  { intros d. unfold NilZero.string_of_uint.
    destruct d; try apply digits_hold_no_line_break. reflexivity. }
  destruct (Z.to_int n) as [d|d]; cbn [NilZero.string_of_int]; [apply Hu|].
  rewrite has_line_break_String, Hu. reflexivity.
Qed.

(** The number 12345678901 (11 bytes) under a limit of 5 and with
    truncation switched off. *)
Lemma InvalidValueString_truncates_witness :
  emits_no_line_break marshal ∧
  marshal (Some (Int 12345678901)) =
    Some (String.list_byte_of_string "12345678901") ∧
  InvalidValueString marshal {| MaxKeywordErrStringLen := 5 |}
    (Some (Int 12345678901)) = Returned "12345..."%string ∧
  InvalidValueString marshal {| MaxKeywordErrStringLen := -1 |}
    (Some (Int 12345678901)) = Returned "12345678901"%string.
Proof.
  assert (marshal (Some (Int 12345678901)) =
            Some (String.list_byte_of_string "12345678901")) as Hm
    by (vm_compute; reflexivity).
  split; [exact marshal_emits_no_line_break|]. split; [exact Hm|]. split.
  - destruct (InvalidValueString_truncates marshal
                {| MaxKeywordErrStringLen := 5 |} _ _
                marshal_emits_no_line_break Hm) as (Hcut & _ & _).
    rewrite Hcut; [vm_compute; reflexivity|simpl; lia|vm_compute; reflexivity].
  - destruct (InvalidValueString_truncates marshal
                {| MaxKeywordErrStringLen := -1 |} _ _
                marshal_emits_no_line_break Hm) as (_ & Hfull & _).
    rewrite Hfull; [vm_compute; reflexivity|reflexivity].
Defined.

(** C5 fails as stated: with the limit set to -2, which is not -1 and is
    below the length of every text, [InvalidValueString] returns no string
    at all; the slice with bound -2 panics. *)
Lemma InvalidValueString_limit_minus_two :
  let g := {| MaxKeywordErrStringLen := -2 |} in
  let data := Some (Int 12345678901) in
  MaxKeywordErrStringLen g ≠ -1 ∧
  marshal data = Some (String.list_byte_of_string "12345678901") ∧
  MaxKeywordErrStringLen g < len (String.list_byte_of_string "12345678901") ∧
  InvalidValueString marshal g data = Panicked (SliceBoundsOutOfRange (-2)) ∧
  (∀ s, InvalidValueString marshal g data ≠ Returned s).
Proof.
  assert (InvalidValueString marshal {| MaxKeywordErrStringLen := -2 |}
            (Some (Int 12345678901)) = Panicked (SliceBoundsOutOfRange (-2)))
    as E by (vm_compute; reflexivity).
  cbv zeta.
  split_and!; [discriminate|vm_compute; reflexivity|vm_compute; reflexivity|exact E|].
  intros s. rewrite E. discriminate.
Qed.


(** A [KeyError] with path and value, and one with the path only. *)
Lemma Error_rendering_witness :
  let v := {| PropertyPath := "/a/b"; InvalidValue := Some (Int 7);
              Message := "too short" |} in
  let w := {| PropertyPath := "/a/b"; InvalidValue := None;
              Message := "too short" |} in
  PropertyPath v ≠ EmptyString ∧ InvalidValue v ≠ None ∧
  InvalidValueString marshal initial_pkgvars (InvalidValue v) = Returned "7"%string ∧
  Error marshal initial_pkgvars v = Returned "/a/b: 7 too short"%string ∧
  Error marshal initial_pkgvars w = Returned "/a/b: too short"%string.
Proof.
  cbv zeta.
  set (v := {| PropertyPath := "/a/b"; InvalidValue := Some (Int 7);
               Message := "too short" |}).
  set (w := {| PropertyPath := "/a/b"; InvalidValue := None;
               Message := "too short" |}).
  assert (PropertyPath v ≠ EmptyString) as Hp by discriminate.
  assert (InvalidValue v ≠ None) as Hv by discriminate.
  assert (InvalidValueString marshal initial_pkgvars (InvalidValue v) =
            Returned "7"%string) as Hs by (vm_compute; reflexivity).
  destruct (Error_rendering marshal initial_pkgvars v) as (Hboth & _).
  destruct (Hboth Hp Hv) as (Hret & _).
  destruct (Error_rendering marshal initial_pkgvars w) as (_ & Hpath & _).
  split_and!; [exact Hp|exact Hv|exact Hs|exact (Hret _ Hs)|].
  apply Hpath; [discriminate|reflexivity].
Defined.

(** A channel cannot be serialised. *)
Lemma InvalidValueString_marshal_failure_witness :
  marshal (Some Chan) = None ∧
  InvalidValueString marshal initial_pkgvars (Some Chan) = Returned EmptyString.
Proof.
  assert (marshal (Some Chan) = None) as Hm by reflexivity.
  split; [exact Hm|].
  exact (InvalidValueString_marshal_failure marshal initial_pkgvars (Some Chan) Hm).
Defined.

(** The default limit 20 is a valid one; -2 is not. *)
Lemma InvalidValueString_total_only_for_valid_limit_witness :
  (MaxKeywordErrStringLen initial_pkgvars = -1 ∨
   0 ≤ MaxKeywordErrStringLen initial_pkgvars) ∧
  (∀ data, ∃ s, InvalidValueString marshal initial_pkgvars data = Returned s) ∧
  MaxKeywordErrStringLen {| MaxKeywordErrStringLen := -2 |} < -1 ∧
  marshal (Some (Int 7)) = Some (String.list_byte_of_string "7") ∧
  InvalidValueString marshal {| MaxKeywordErrStringLen := -2 |} (Some (Int 7)) =
    Panicked (SliceBoundsOutOfRange (-2)).
Proof.
  assert (MaxKeywordErrStringLen initial_pkgvars = -1 ∨
          0 ≤ MaxKeywordErrStringLen initial_pkgvars) as Hok by (right; simpl; lia).
  assert (MaxKeywordErrStringLen {| MaxKeywordErrStringLen := -2 |} < -1)
    as Hbad by (simpl; lia).
  assert (marshal (Some (Int 7)) = Some (String.list_byte_of_string "7"))
    as Hm by reflexivity.
  destruct (InvalidValueString_total_only_for_valid_limit marshal initial_pkgvars)
    as (Htotal & _ & _).
  destruct (InvalidValueString_total_only_for_valid_limit marshal
              {| MaxKeywordErrStringLen := -2 |}) as (_ & Hpanic & _).
  split_and!; [exact Hok|exact (Htotal Hok)|exact Hbad|exact Hm|].
  exact (Hpanic Hbad _ _ Hm).
Defined.

(** * Further properties of the registry *)

Section RegistryFacts.

Context {Value Schema SchemaRegistry RunState : Type}.

Local Abbreviation Heap := (@heap Value Schema SchemaRegistry RunState).
Local Abbreviation Maker := (@KeyMaker Value Schema SchemaRegistry RunState).
Local Abbreviation Call := (@call Value Schema SchemaRegistry RunState).

Implicit Types (h : Heap) (r c : KeywordRegistry) (l : loc)
  (prop name : string) (maker : Maker) (cs : list Call).

(** ** One call *)

(** X1: [RegisterKeyword(name, maker)] registers [name], makes
    [GetKeyword(name)] return what [maker] builds and gives [name] the
    current size of the insert-order map as insert order, whether or not
    [name] was registered before.  Every other name keeps all four lookups
    and no priority changes. *)
Theorem RegisterKeyword_effect r name maker h :
  keywordOrder r ≠ keywordInsertOrder r →
  let h' := RegisterKeyword r name maker h in
  IsRegisteredKeyword r name h' = true ∧
  GetKeyword r name h' = maker () ∧
  GetKeywordInsertOrder r name h' =
    Z.of_nat (size (ints_at h (keywordInsertOrder r))) ∧
  (∀ n, GetKeywordOrder r n h' = GetKeywordOrder r n h) ∧
  (∀ n, n ≠ name →
        IsRegisteredKeyword r n h' = IsRegisteredKeyword r n h ∧
        GetKeyword r n h' = GetKeyword r n h ∧
        GetKeywordInsertOrder r n h' = GetKeywordInsertOrder r n h).
Proof.
  intros Hne h'. subst h'.
  unfold IsRegisteredKeyword, GetKeywordOrder, GetKeywordInsertOrder.
  rewrite !GetKeyword_lookup.
  split_and!.
  - rewrite RegisterKeyword_makers, decide_True by done.
    by rewrite lookup_insert_eq.
  - rewrite RegisterKeyword_makers, decide_True by done.
    by rewrite lookup_insert_eq.
  - rewrite RegisterKeyword_ints, decide_True by done.
    by rewrite lookup_insert_eq.
  - intros n. rewrite RegisterKeyword_ints. by rewrite decide_False by done.
  - intros n Hn. rewrite !GetKeyword_lookup.
    rewrite RegisterKeyword_makers, RegisterKeyword_ints.
    rewrite !decide_True by done. by rewrite !lookup_insert_ne by done.
Qed.

(** X2: [SetKeywordOrder(name, order)] makes [GetKeywordOrder(name)] return
    [order], for a registered and for an unregistered name alike.  It
    registers nothing: the priority of every other name, and
    [IsRegisteredKeyword], [GetKeyword] and [GetKeywordInsertOrder] of every
    name, stay as they were. *)
Theorem SetKeywordOrder_effect r name (order : Z) h :
  keywordOrder r ≠ keywordInsertOrder r →
  let h' := SetKeywordOrder r name order h in
  GetKeywordOrder r name h' = order ∧
  (∀ n, n ≠ name → GetKeywordOrder r n h' = GetKeywordOrder r n h) ∧
  (∀ n, IsRegisteredKeyword r n h' = IsRegisteredKeyword r n h ∧
        GetKeyword r n h' = GetKeyword r n h ∧
        GetKeywordInsertOrder r n h' = GetKeywordInsertOrder r n h).
Proof.
  intros Hne h'. subst h'.
  unfold IsRegisteredKeyword, GetKeywordOrder, GetKeywordInsertOrder.
  split_and!.
  - rewrite SetKeywordOrder_ints, decide_True by done.
    by rewrite lookup_insert_eq.
  - intros n Hn. rewrite SetKeywordOrder_ints, decide_True by done.
    by rewrite lookup_insert_ne.
  - intros n. rewrite !GetKeyword_lookup, SetKeywordOrder_makers.
    rewrite SetKeywordOrder_ints. by rewrite decide_False by done.
Qed.

(** X3: priorities are last-write-wins per name and independent across
    names: setting a name twice leaves the registry as setting it once to
    the later value, and priorities of two different names can be set in
    either order. *)
Theorem SetKeywordOrder_twice r n1 n2 (o1 o2 : Z) h :
  same_lookups r (SetKeywordOrder r n1 o2 (SetKeywordOrder r n1 o1 h))
               r (SetKeywordOrder r n1 o2 h) ∧
  (n1 ≠ n2 →
   same_lookups r (SetKeywordOrder r n1 o1 (SetKeywordOrder r n2 o2 h))
                r (SetKeywordOrder r n2 o2 (SetKeywordOrder r n1 o1 h))).
Proof.
  split; [|intros Hn]; apply same_lookups_of_maps;
    rewrite ?SetKeywordOrder_makers, ?SetKeywordOrder_ints; try done;
    repeat case_decide; try done.
  - by rewrite insert_insert_eq.
  - by rewrite insert_insert_eq.
  - by apply insert_insert_ne.
  - by apply insert_insert_ne.
Qed.

(** X4: a priority may be set before the keyword is registered or after:
    both orders of the two calls leave the registry with the same
    lookups. *)
Theorem SetKeywordOrder_RegisterKeyword_commute r n1 (order : Z) n2 maker h :
  keywordOrder r ≠ keywordInsertOrder r →
  same_lookups r (SetKeywordOrder r n1 order (RegisterKeyword r n2 maker h))
               r (RegisterKeyword r n2 maker (SetKeywordOrder r n1 order h)).
Proof.
  intros Hne. apply same_lookups_of_maps;
    rewrite ?SetKeywordOrder_makers, ?SetKeywordOrder_ints,
            ?RegisterKeyword_makers, ?RegisterKeyword_ints,
            ?SetKeywordOrder_makers, ?SetKeywordOrder_ints;
    repeat case_decide; try done; congruence.
Qed.

(** X5: [IsRegistryLoaded] answers whether some name is registered. *)
Theorem IsRegistryLoaded_iff r h :
  IsRegistryLoaded r h = true ↔ ∃ name, IsRegisteredKeyword r name h = true.
Proof.
  unfold IsRegistryLoaded, IsRegisteredKeyword.
  rewrite bool_decide_eq_true.
  set (m := makers_at h (keywordRegistry r)). split.
  - intros Hsize. destruct (map_choose m) as (k & v & Hk).
    + apply map_size_non_empty_iff. lia.
    + exists k. by rewrite Hk.
  - intros [k Hk]. destruct (m !! k) as [v|] eqn:E; [|done].
    assert (size m ≠ 0%nat); [|lia].
    apply map_size_non_empty_iff. intros ->. by rewrite lookup_empty in E.
Qed.

(** ** Any sequence of calls on a fresh registry *)

Lemma size_list_to_set_remove_dups (names : list string) :
  size (list_to_set names : gset string) = length (remove_dups names).
Proof.
  rewrite <-(size_list_to_set (C:=gset string) (remove_dups names))
    by apply NoDup_remove_dups.
  f_equal. apply set_eq. intros x.
  by rewrite !elem_of_list_to_set, elem_of_remove_dups.
Qed.

Lemma map_size_insert_ge (m : gmap string Z) k z : (size m ≤ size (<[k := z]> m))%nat.
Proof. rewrite map_size_insert. destruct (m !! k); simpl; lia. Qed.

(** Names registered more than once included: the constructor map and the
    insert-order map hold the same names, and no insert order exceeds the
    number of names. *)
Lemma do_calls_tables_any r cs h :
  makers_at h (keywordRegistry r) = ∅ →
  ints_at h (keywordInsertOrder r) = ∅ →
  keywordOrder r ≠ keywordInsertOrder r →
  let h' := do_calls r cs h in
  dom (makers_at h' (keywordRegistry r)) = list_to_set (registered_names cs) ∧
  dom (ints_at h' (keywordInsertOrder r)) = list_to_set (registered_names cs) ∧
  ∀ n z, ints_at h' (keywordInsertOrder r) !! n = Some z →
         0 ≤ z ≤ Z.of_nat (size (ints_at h' (keywordInsertOrder r))).
Proof.
  intros HR HIO Hne. simpl.
  induction cs as [|x cs (IH1 & IH2 & IH3)] using rev_ind.
  - simpl. rewrite HR, HIO, !dom_empty_L. split_and!; [done..|].
    intros n z. by rewrite lookup_empty.
  - rewrite registered_names_snoc, do_calls_snoc.
    destruct x as [p mk|p o]; simpl.
    + rewrite RegisterKeyword_makers, RegisterKeyword_ints.
      rewrite !decide_True by done.
      rewrite !dom_insert_L, IH1, IH2, list_to_set_app_L. simpl.
      rewrite (right_id_L ∅ (∪)), (comm_L (∪) {[p]}).
      split_and!; [done..|].
      set (m := ints_at (do_calls r cs h) (keywordInsertOrder r)) in *.
      pose proof (map_size_insert_ge m p (Z.of_nat (size m))) as Hge.
      intros n z [[-> <-]|[_ Hz]]%lookup_insert_Some; [lia|].
      specialize (IH3 n z Hz). lia.
    + rewrite app_nil_r.
      rewrite SetKeywordOrder_makers, SetKeywordOrder_ints.
      by rewrite decide_False by done.
Qed.

(** X6: on a registry fresh from its literal, after any sequence of calls
    (names may be registered repeatedly), a name is registered exactly when
    some call registered it; a registered name has an insert order between
    0 and the number of distinct registered names; any other name reads
    the sentinel 1000; and the registry is loaded exactly when some call
    registered a name. *)
Theorem lookups_after_any_calls h cs r h0 :
  newKeywordRegistry h = (r, h0) →
  let h' := do_calls r cs h0 in
  let names := registered_names cs in
  (∀ n, IsRegisteredKeyword r n h' = true ↔ n ∈ names) ∧
  (∀ n, n ∈ names →
        0 ≤ GetKeywordInsertOrder r n h' ≤ Z.of_nat (length (remove_dups names))) ∧
  (∀ n, n ∉ names → GetKeywordInsertOrder r n h' = 1000) ∧
  (IsRegistryLoaded r h' = true ↔ names ≠ []).
Proof.
  intros Hnew h' names.
  destruct (newKeywordRegistry_empty _ _ _ Hnew) as (HR & _ & HIO & Hne).
  destruct (do_calls_tables_any r cs h0 HR HIO Hne) as (Hdm & Hdi & Hbound).
  fold h' names in Hdm, Hdi, Hbound.
  assert (∀ n, is_Some (makers_at h' (keywordRegistry r) !! n) ↔ n ∈ names) as Hm.
  { intros n. by rewrite <-elem_of_dom, Hdm, elem_of_list_to_set. }
  assert (∀ n, is_Some (ints_at h' (keywordInsertOrder r) !! n) ↔ n ∈ names) as Hi.
  { intros n. by rewrite <-elem_of_dom, Hdi, elem_of_list_to_set. }
  split_and!.
  - intros n. rewrite <-Hm. unfold IsRegisteredKeyword.
    destruct (makers_at h' (keywordRegistry r) !! n).
    + split; [by eauto|done].
    + split; [done|by intros [? ?]].
  - intros n [z Hz]%Hi. unfold GetKeywordInsertOrder. rewrite Hz.
    specialize (Hbound n z Hz).
    rewrite <-size_dom, Hdi, size_list_to_set_remove_dups in Hbound. lia.
  - intros n Hn. unfold GetKeywordInsertOrder.
    destruct (ints_at h' (keywordInsertOrder r) !! n) as [z|] eqn:E; [|done].
    exfalso. apply Hn, Hi. by eauto.
  - unfold IsRegistryLoaded. rewrite bool_decide_eq_true.
    rewrite <-size_dom, Hdm, size_list_to_set_remove_dups.
    destruct names as [|n names']; simpl; [split; [lia|done]|].
    split; [done|intros _]. case_decide; [|simpl; lia].
    assert (remove_dups names' ≠ []); [|destruct (remove_dups names'); simpl; [done|lia]].
    intros E. assert (n ∈ remove_dups names') as Hin by by apply elem_of_remove_dups.
    rewrite E in Hin. by apply elem_of_nil in Hin.
Qed.

(** ** Copy among other registries *)

(** X7: in a well-formed store, [Copy] of a well-formed registry leaves
    the store well formed and returns a well-formed registry that is loaded
    exactly when the source is.  Every registry that existed before, the
    source or not, stays well formed, keeps all its lookups and shares no
    map with the copy. *)
Theorem Copy_preserves_existing_registries h r c h' :
  heap_ok h → registry_ok h r →
  Copy r h = (c, h') →
  heap_ok h' ∧ registry_ok h' c ∧
  IsRegistryLoaded c h' = IsRegistryLoaded r h ∧
  ∀ r', registry_ok h r' →
        registry_ok h' r' ∧ same_lookups r' h' r' h ∧ separate c r'.
Proof.
  intros Hh Hr Hcopy.
  destruct (Copy_ok h r c h' Hh Hr Hcopy) as (Hh' & Hc & Hkeep).
  destruct (registry_ok_live h r Hh Hr) as (L1 & L2 & L3).
  destruct (Copy_spec h r c h' Hcopy) as (Ec & _ & Hold & C1 & C2 & C3).
  split_and!; [done..| |].
  - unfold IsRegistryLoaded. by rewrite C1.
  - intros r' Hr'. destruct (registry_ok_live h r' Hh Hr') as (L1' & L2' & L3').
    split_and!.
    + by apply Hkeep.
    + apply same_lookups_of_maps;
        [apply makers_at_ext|apply ints_at_ext..]; by apply Hold.
    + subst c. unfold separate. simpl. lia.
Qed.

(** X8: a name registered on a copy continues the numbering of the source:
    it gets the size of the source's insert-order map as insert order,
    while the source keeps all its lookups. *)
Theorem RegisterKeyword_on_copy h r c h' name maker :
  heap_ok h → registry_ok h r →
  Copy r h = (c, h') →
  let h'' := RegisterKeyword c name maker h' in
  IsRegisteredKeyword c name h'' = true ∧
  GetKeyword c name h'' = maker () ∧
  GetKeywordInsertOrder c name h'' =
    Z.of_nat (size (ints_at h (keywordInsertOrder r))) ∧
  same_lookups r h'' r h.
Proof.
  intros Hh Hr Hcopy h''. subst h''.
  destruct (registry_ok_live h r Hh Hr) as (L1 & L2 & L3).
  destruct (Copy_spec h r c h' Hcopy) as (Ec & _ & Hold & C1 & C2 & C3).
  assert (separate c r) as Hsep by (subst c; unfold separate; simpl; lia).
  unfold IsRegisteredKeyword, GetKeywordInsertOrder.
  rewrite GetKeyword_lookup, RegisterKeyword_makers, RegisterKeyword_ints.
  rewrite !decide_True by done. rewrite !lookup_insert_eq, C3 by done.
  split_and!; [done..|].
  destruct (do_call_frame c r h' (CallRegisterKeyword name maker) Hsep)
    as (F1 & F2 & F3). simpl in F1, F2, F3.
  apply same_lookups_of_maps.
  - rewrite F1. apply makers_at_ext. by apply Hold.
  - rewrite F2. apply ints_at_ext. by apply Hold.
  - rewrite F3. apply ints_at_ext. by apply Hold.
Qed.

End RegistryFacts.

(** * The package-level registry *)

Section PackageFacts.

Context {Value Schema SchemaRegistry RunState : Type}.

Local Abbreviation Heap := (@heap Value Schema SchemaRegistry RunState).
Local Abbreviation State := (@Package.state Value Schema SchemaRegistry RunState).
Local Abbreviation Call := (@call Value Schema SchemaRegistry RunState).

Implicit Types (p : State) (h : Heap) (r c : KeywordRegistry) (cs : list Call).

Lemma getGlobal_initialised p r :
  Package.kr p = Some r → Package.getGlobalKeywordRegistry p = (r, p).
Proof. intros E. unfold Package.getGlobalKeywordRegistry. by rewrite E. Qed.

Lemma getGlobal_first p r h0 :
  Package.kr p = None → newKeywordRegistry (Package.mem p) = (r, h0) →
  Package.getGlobalKeywordRegistry p =
    (r, {| Package.kr := Some r; Package.mem := h0 |}).
Proof.
  intros E Hnew. unfold Package.getGlobalKeywordRegistry. by rewrite E, Hnew.
Qed.

Lemma getGlobal_kr p r p1 :
  Package.getGlobalKeywordRegistry p = (r, p1) → Package.kr p1 = Some r.
Proof.
  unfold Package.getGlobalKeywordRegistry.
  destruct (Package.kr p) as [r'|] eqn:E.
  - by intros [= <- <-].
  - destruct (newKeywordRegistry (Package.mem p)) as [r' h0].
    by intros [= <- <-].
Qed.

Lemma getGlobal_ok p r p1 :
  Package.state_ok p → Package.getGlobalKeywordRegistry p = (r, p1) →
  Package.state_ok p1 ∧ registry_ok (Package.mem p1) r ∧
  ∀ r', registry_ok (Package.mem p) r' → registry_ok (Package.mem p1) r'.
Proof.
  intros [Hh Hr]. unfold Package.getGlobalKeywordRegistry.
  destruct (Package.kr p) as [r'|] eqn:E.
  - intros [= <- <-]. split_and!; [|done..]. split; [done|]. by rewrite E.
  - destruct (newKeywordRegistry (Package.mem p)) as [r' h0] eqn:Hnew.
    intros [= <- <-].
    destruct (newKeywordRegistry_ok _ _ _ Hh Hnew) as (Hh0 & Hr0 & Hkeep).
    split_and!; [|done..]. by split.
Qed.

Lemma package_do_call_initialised p r (x : Call) :
  Package.kr p = Some r →
  Package.do_call p x =
    {| Package.kr := Some r; Package.mem := do_call r (Package.mem p) x |}.
Proof.
  intros E. destruct x as [prop maker|prop order]; simpl;
    unfold Package.RegisterKeyword, Package.SetKeywordOrder;
    rewrite (getGlobal_initialised p r E); by rewrite E.
Qed.

Lemma package_do_calls_initialised p r cs :
  Package.kr p = Some r →
  Package.do_calls cs p =
    {| Package.kr := Some r; Package.mem := do_calls r cs (Package.mem p) |}.
Proof.
  revert p. induction cs as [|x cs IH]; intros p E.
  - destruct p as [k m]. simpl in *. by subst k.
  - unfold Package.do_calls, do_calls in *. simpl.
    rewrite (package_do_call_initialised p r x E). by rewrite IH.
Qed.

Lemma package_do_call_from p r p1 (x : Call) :
  Package.getGlobalKeywordRegistry p = (r, p1) →
  Package.do_call p x =
    {| Package.kr := Some r; Package.mem := do_call r (Package.mem p1) x |}.
Proof.
  intros Hg. pose proof (getGlobal_kr p r p1 Hg) as E.
  destruct x as [prop maker|prop order]; simpl;
    unfold Package.RegisterKeyword, Package.SetKeywordOrder;
    rewrite Hg; by rewrite E.
Qed.

Lemma package_do_calls_from p r p1 (x : Call) cs :
  Package.getGlobalKeywordRegistry p = (r, p1) →
  Package.do_calls (x :: cs) p =
    {| Package.kr := Some r;
       Package.mem := do_calls r (x :: cs) (Package.mem p1) |}.
Proof.
  intros Hg. unfold Package.do_calls. simpl.
  rewrite (package_do_call_from p r p1 x Hg).
  fold (Package.do_calls cs
          {| Package.kr := Some r; Package.mem := do_call r (Package.mem p1) x |}).
  by rewrite (package_do_calls_initialised
                (Package.mkState (Some r) (do_call r (Package.mem p1) x)) r cs eq_refl).
Qed.

(** X9: [getGlobalKeywordRegistry] creates the registry once.  The state
    it leaves has [kr] set to the registry it returns and is well formed,
    and asking again returns the same registry without changing anything.
    A registry created by the call is empty; one that existed is returned
    with the state untouched. *)
Theorem getGlobalKeywordRegistry_creates_once p r p1 :
  Package.state_ok p →
  Package.getGlobalKeywordRegistry p = (r, p1) →
  Package.kr p1 = Some r ∧
  Package.state_ok p1 ∧
  Package.getGlobalKeywordRegistry p1 = (r, p1) ∧
  (Package.kr p = None →
     IsRegistryLoaded r (Package.mem p1) = false ∧
     ∀ name, IsRegisteredKeyword r name (Package.mem p1) = false) ∧
  (∀ r', Package.kr p = Some r' → r = r' ∧ p1 = p).
Proof.
  intros Hok Hg. pose proof (getGlobal_kr p r p1 Hg) as E.
  destruct (getGlobal_ok p r p1 Hok Hg) as (Hok1 & _ & _).
  split_and!; [done|done|by apply getGlobal_initialised| |].
  - intros Hnil. revert Hg. unfold Package.getGlobalKeywordRegistry. rewrite Hnil.
    destruct (newKeywordRegistry (Package.mem p)) as [r' h0] eqn:Hnew.
    intros [= <- <-]. simpl.
    destruct (newKeywordRegistry_empty _ _ _ Hnew) as (HR & _).
    unfold IsRegistryLoaded, IsRegisteredKeyword. rewrite HR. split; [done|].
    intros name. by rewrite lookup_empty.
  - intros r' Hsome. rewrite (getGlobal_initialised p r' Hsome) in Hg.
    by injection Hg as <- <-.
Qed.

(** X10: every package-level [RegisterKeyword] and [SetKeywordOrder] works
    on the one shared registry: a non-empty sequence of them equals the
    same sequence of method calls on the registry
    [getGlobalKeywordRegistry] returns, [kr] points to that registry
    afterwards, and the state stays well formed. *)
Theorem package_calls_are_method_calls p r p1 (x : Call) cs :
  Package.state_ok p →
  Package.getGlobalKeywordRegistry p = (r, p1) →
  let p' := Package.do_calls (x :: cs) p in
  p' = {| Package.kr := Some r;
          Package.mem := do_calls r (x :: cs) (Package.mem p1) |} ∧
  Package.state_ok p' ∧
  Package.getGlobalKeywordRegistry p' = (r, p').
Proof.
  intros Hok Hg p'. subst p'.
  rewrite (package_do_calls_from p r p1 x cs Hg).
  destruct (getGlobal_ok p r p1 Hok Hg) as ([Hh1 _] & Hr1 & _).
  destruct (do_calls_ok r (x :: cs) (Package.mem p1) Hh1 Hr1) as (Hh' & Hr').
  split_and!; [done| |done]. split; [done|]. simpl. by apply Hr'.
Qed.

Lemma copyGlobal_initialised p r c h :
  Package.kr p = Some r → Copy r (Package.mem p) = (c, h) →
  Package.copyGlobalKeywordRegistry p =
    (c, {| Package.kr := Some r; Package.mem := h |}).
Proof.
  intros E Hc. unfold Package.copyGlobalKeywordRegistry.
  rewrite (getGlobal_initialised p r E), Hc. by rewrite E.
Qed.

Lemma copyGlobal_after_calls p r h0 cs c h' :
  Package.kr p = None → newKeywordRegistry (Package.mem p) = (r, h0) →
  Copy r (do_calls r cs h0) = (c, h') →
  Package.copyGlobalKeywordRegistry (Package.do_calls cs p) =
    (c, {| Package.kr := Some r; Package.mem := h' |}).
Proof.
  intros E Hnew Hc. pose proof (getGlobal_first p r h0 E Hnew) as Hg.
  destruct cs as [|x cs].
  - change (Copy r h0 = (c, h')) in Hc.
    unfold Package.copyGlobalKeywordRegistry, Package.do_calls. cbn [foldl].
    rewrite Hg. cbn [Package.mem Package.kr]. by rewrite Hc.
  - rewrite (package_do_calls_from p r _ x cs Hg). simpl Package.mem.
    by apply copyGlobal_initialised.
Qed.

(** X11: starting with no shared registry, after package-level calls that
    register no name twice, [copyGlobalKeywordRegistry] returns a copy in
    which exactly the registered names are registered, the i-th of them
    with insert order i, and every name no call mentioned has
    priority 1. *)
Theorem snapshot_after_package_registrations p cs c p2 :
  Package.state_ok p → Package.kr p = None →
  NoDup (registered_names cs) →
  Package.copyGlobalKeywordRegistry (Package.do_calls cs p) = (c, p2) →
  (∀ n, IsRegisteredKeyword c n (Package.mem p2) = true ↔ n ∈ registered_names cs) ∧
  (∀ i n, registered_names cs !! i = Some n →
          GetKeywordInsertOrder c n (Package.mem p2) = Z.of_nat i) ∧
  (∀ n, n ∉ call_name <$> cs → GetKeywordOrder c n (Package.mem p2) = 1).
Proof.
  intros [Hh _] E Hnd Hsnap.
  destruct (newKeywordRegistry (Package.mem p)) as [r h0] eqn:Hnew.
  destruct (Copy r (do_calls r cs h0)) as [c' h'] eqn:Hc.
  rewrite (copyGlobal_after_calls p r h0 cs c' h' E Hnew Hc) in Hsnap.
  injection Hsnap as <- <-. simpl.
  destruct (newKeywordRegistry_ok _ _ _ Hh Hnew) as (Hh0 & Hr0 & _).
  destruct (do_calls_ok r cs h0 Hh0 Hr0) as (HhN & HrN).
  destruct (registry_ok_live _ r HhN (HrN r Hr0)) as (L1 & L2 & L3).
  destruct (Copy_spec _ r c' h' Hc) as (_ & _ & _ & C1 & C2 & C3).
  destruct (newKeywordRegistry_empty _ _ _ Hnew) as (HR & HO & HIO & Hne).
  destruct (do_calls_tables r cs h0 HR HIO Hne Hnd) as (Hdom & _ & Hidx).
  unfold IsRegisteredKeyword, GetKeywordInsertOrder, GetKeywordOrder.
  rewrite C1, C2, C3 by done. split_and!.
  - intros n. rewrite <-(elem_of_list_to_set (C:=gset string)), <-Hdom, elem_of_dom.
    destruct (makers_at (do_calls r cs h0) (keywordRegistry r) !! n).
    + split; [by eauto|done].
    + split; [done|by intros [? ?]].
  - intros i n Hi. by rewrite (Hidx i n Hi).
  - intros n Hn. rewrite do_calls_ints_other by done.
    by rewrite HO, lookup_empty.
Qed.

(** X12: the registry [copyGlobalKeywordRegistry] returns is a snapshot.
    It answers every lookup as the shared registry does at that moment,
    later package-level calls do not change its lookups, and calls on the
    snapshot do not change those of the shared registry. *)
Theorem copyGlobalKeywordRegistry_snapshot p c p1 :
  Package.state_ok p →
  Package.copyGlobalKeywordRegistry p = (c, p1) →
  Package.state_ok p1 ∧ registry_ok (Package.mem p1) c ∧
  ∃ r, Package.kr p1 = Some r ∧
       same_lookups c (Package.mem p1) r (Package.mem p1) ∧
       (∀ cs, same_lookups c (Package.mem (Package.do_calls cs p1))
                           c (Package.mem p1)) ∧
       (∀ cs, same_lookups r (do_calls c cs (Package.mem p1)) r (Package.mem p1)).
Proof.
  intros Hok. unfold Package.copyGlobalKeywordRegistry.
  destruct (Package.getGlobalKeywordRegistry p) as [r p0] eqn:Hg.
  destruct (Copy r (Package.mem p0)) as [c' h] eqn:Hc.
  intros [= <- <-]. simpl.
  pose proof (getGlobal_kr p r p0 Hg) as E.
  destruct (getGlobal_ok p r p0 Hok Hg) as ([Hh0 _] & Hr0 & _).
  destruct (Copy_ok _ r c' h Hh0 Hr0 Hc) as (Hh & Hcok & Hkeep).
  destruct (registry_ok_live _ r Hh0 Hr0) as (L1 & L2 & L3).
  destruct (Copy_spec _ r c' h Hc) as (Ec & _ & Hold & C1 & C2 & C3).
  assert (separate c' r) as Hsep by (subst c'; unfold separate; simpl; lia).
  split_and!.
  - split; [done|]. simpl. rewrite E. by apply Hkeep.
  - done.
  - exists r. split_and!; [done| | |].
    + apply same_lookups_of_maps.
      * rewrite C1 by done. symmetry. apply makers_at_ext. by apply Hold.
      * rewrite C2 by done. symmetry. apply ints_at_ext. by apply Hold.
      * rewrite C3 by done. symmetry. apply ints_at_ext. by apply Hold.
    + intros cs.
      rewrite (package_do_calls_initialised
                 (Package.mkState (Package.kr p0) h) r cs E). simpl.
      by apply do_calls_frame, separate_sym.
    + intros cs. by apply do_calls_frame.
Qed.

End PackageFacts.

(** * Further properties of the error model *)

Section ErrorFacts.

Context {Value : Type}.
Variable json_Marshal : @any Value → option bytes.

Implicit Types (g : pkgvars) (data : @any Value) (bt s : bytes).

(** ** The replacement step *)

(** [has_prefix] against the newline-carriage-return pair, byte by byte. *)
Lemma has_prefix_lf_cr b s :
  has_prefix [x0a; x0d] (b :: s) =
    Byte.eqb x0a b && match s with [] => false | b2 :: _ => Byte.eqb x0d b2 end.
Proof.
  cbn [has_prefix]. destruct (Byte.eqb x0a b); [|done].
  destruct s as [|b2 s]; [done|]. simpl. by destruct (Byte.eqb x0d b2).
Qed.

Lemma replace_from_length old new skip s :
  (length new ≤ 1)%nat →
  (length (replace_from old new skip s) ≤ length s)%nat.
Proof.
  intros Hnew. revert skip. induction s as [|b s IH]; intros skip; [done|].
  cbn [replace_from]. destruct skip as [|k].
  - destruct (has_prefix old (b :: s)).
    + rewrite length_app. specialize (IH (length old - 1)%nat).
      cbn [length]. lia.
    + specialize (IH 0%nat). cbn [length]. lia.
  - specialize (IH k). cbn [length]. lia.
Qed.

(** After the replacement no newline is directly followed by a carriage
    return, and the output starts with a carriage return only if the input
    does. *)
Lemma replace_lf_cr_no_pair n s :
  (length s ≤ n)%nat →
  let out := replace_from [x0a; x0d] [x20] 0 s in
  occurs [x0a; x0d] out = false ∧
  (match s with [] => false | b :: _ => Byte.eqb x0d b end = false →
   match out with [] => false | b :: _ => Byte.eqb x0d b end = false).
Proof.
  revert s. induction n as [|n IH]; intros s Hlen.
  { destruct s; [done|simpl in Hlen; lia]. }
  destruct s as [|b s]; [done|]. cbn zeta. cbn [replace_from].
  rewrite has_prefix_lf_cr.
  destruct (Byte.eqb x0a b) eqn:Eb; cbn [andb].
  - destruct s as [|b2 s].
    + split; [|done]. cbn [replace_from occurs]. rewrite has_prefix_lf_cr, Eb.
      done.
    + destruct (Byte.eqb x0d b2) eqn:Eb2.
      * cbn [length Nat.sub replace_from app].
        destruct (IH s) as [Hocc _]; [cbn [length] in *; lia|].
        cbn zeta in Hocc. split; [|done].
        cbn [occurs]. rewrite has_prefix_lf_cr, Hocc. done.
      * destruct (IH (b2 :: s)) as [Hocc Hcr]; [cbn [length] in *; lia|].
        cbn zeta in Hocc, Hcr. specialize (Hcr Eb2). split; [|done].
        cbn [occurs]. rewrite has_prefix_lf_cr, Eb, Hocc.
        destruct (replace_from [x0a; x0d] [x20] 0 (b2 :: s)); [done|].
        by rewrite Hcr.
  - destruct (IH s) as [Hocc Hcr]; [cbn [length] in *; lia|].
    cbn zeta in Hocc, Hcr. split; [|done].
    cbn [occurs]. rewrite has_prefix_lf_cr, Eb, Hocc. done.
Qed.

(** X13: what [bytes.Replace(bt, {'\n','\r'}, {' '}, -1)] guarantees: in its
    result no newline is directly followed by a carriage return, the result
    is never longer than the text, a text without such a pair comes back
    unchanged, and replacing again changes nothing. *)
Theorem ReplaceAll_lf_cr_result bt :
  let bt' := bytes_ReplaceAll bt [x0a; x0d] [x20] in
  occurs [x0a; x0d] bt' = false ∧
  len bt' ≤ len bt ∧
  (occurs [x0a; x0d] bt = false → bt' = bt) ∧
  bytes_ReplaceAll bt' [x0a; x0d] [x20] = bt'.
Proof.
  intros bt'. subst bt'. unfold bytes_ReplaceAll.
  destruct (replace_lf_cr_no_pair (length bt) bt (le_n _)) as [Hocc _].
  cbn zeta in Hocc. split_and!.
  - done.
  - pose proof (replace_from_length [x0a; x0d] [x20] 0 bt) as Hlen.
    unfold len. simpl in Hlen. lia.
  - apply replace_from_no_occurrence.
  - by apply replace_from_no_occurrence.
Qed.

(** ** Rendering within the limit *)

Lemma len_bytes_of_string bt :
  len (String.list_byte_of_string (String.string_of_list_byte bt)) = len bt.
Proof. by rewrite String.list_byte_of_string_of_list_byte. Qed.

Lemma InvalidValueString_no_value g data :
  json_Marshal data = None →
  InvalidValueString json_Marshal g data = Returned EmptyString.
Proof. intros Hm. unfold InvalidValueString. by rewrite Hm. Qed.

(** [InvalidValueString] panics exactly when the value serialises and the
    limit is below -1. *)
Lemma InvalidValueString_panics_iff g data q :
  InvalidValueString json_Marshal g data = Panicked q ↔
  (∃ bt, json_Marshal data = Some bt) ∧
  MaxKeywordErrStringLen g < -1 ∧
  q = SliceBoundsOutOfRange (MaxKeywordErrStringLen g).
Proof.
  destruct (json_Marshal data) as [bt|] eqn:Hm.
  - destruct (InvalidValueString_cases json_Marshal g data bt Hm)
      as (Hfull & Hcut & Hneg).
    set (n := MaxKeywordErrStringLen g) in *.
    set (bt' := bytes_ReplaceAll bt [x0a; x0d] [x20]) in *.
    destruct (decide (n < -1)) as [Hn|Hn].
    + rewrite (Hneg Hn). split.
      * intros [= <-]. by eauto.
      * by intros (_ & _ & ->).
    + destruct (decide (n = -1 ∨ len bt' ≤ n)) as [Hc|Hc].
      * rewrite (Hfull Hc). split; [done|]. intros (_ & ? & _). lia.
      * rewrite Hcut by lia. split; [done|]. intros (_ & ? & _). lia.
  - rewrite (InvalidValueString_no_value g data Hm). split; [done|].
    by intros ([bt ?] & _).
Qed.

(** X14: with a limit that is not negative, [InvalidValueString] returns
    for every value a string of at most limit + 3 bytes. *)
Theorem InvalidValueString_bounded g data :
  0 ≤ MaxKeywordErrStringLen g →
  ∃ out, InvalidValueString json_Marshal g data = Returned out ∧
         len (String.list_byte_of_string out) ≤ MaxKeywordErrStringLen g + 3.
Proof.
  intros Hn. destruct (json_Marshal data) as [bt|] eqn:Hm.
  - destruct (InvalidValueString_cases json_Marshal g data bt Hm)
      as (Hfull & Hcut & _).
    set (n := MaxKeywordErrStringLen g) in *.
    set (bt' := bytes_ReplaceAll bt [x0a; x0d] [x20]) in *.
    destruct (decide (len bt' ≤ n)) as [Hc|Hc].
    + eexists. split; [apply Hfull; by right|].
      rewrite len_bytes_of_string. lia.
    + eexists. split; [apply Hcut; lia|].
      rewrite len_bytes_of_string. unfold len in *.
      rewrite length_app, length_take. simpl. lia.
  - exists EmptyString. split; [by apply InvalidValueString_no_value|].
    change (0 ≤ MaxKeywordErrStringLen g + 3). lia.
Qed.

(** X15: a text is cut only when it is strictly longer than the limit: for
    a text without the newline-carriage-return pair and a limit that is not
    negative, a text of at most limit bytes is returned whole, and a longer
    one is rendered in exactly limit + 3 bytes, so a text one or two bytes
    over the limit renders longer than it is. *)
Theorem InvalidValueString_cut_only_when_longer g data bt :
  json_Marshal data = Some bt →
  occurs [x0a; x0d] bt = false →
  0 ≤ MaxKeywordErrStringLen g →
  (len bt ≤ MaxKeywordErrStringLen g →
     InvalidValueString json_Marshal g data =
       Returned (String.string_of_list_byte bt)) ∧
  (MaxKeywordErrStringLen g < len bt →
     ∃ out, InvalidValueString json_Marshal g data = Returned out ∧
            len (String.list_byte_of_string out) = MaxKeywordErrStringLen g + 3).
Proof.
  intros Hm Hocc Hn.
  destruct (InvalidValueString_cases json_Marshal g data bt Hm)
    as (Hfull & Hcut & _).
  unfold bytes_ReplaceAll in *.
  rewrite (replace_from_no_occurrence _ _ _ Hocc) in *. split.
  - intros Hle. apply Hfull. by right.
  - intros Hlt. eexists. split; [apply Hcut; lia|].
    rewrite len_bytes_of_string. unfold len in *.
    rewrite length_app, length_take. simpl. lia.
Qed.

(** ** Rendering a KeyError, the edges *)

Lemma string_app_assoc (s1 s2 s3 : string) :
  (s1 +:+ s2) +:+ s3 = s1 +:+ s2 +:+ s3.
Proof.
  induction s1 as [|a s1 IH]; [done|].
  change (String a ((s1 +:+ s2) +:+ s3) = String a (s1 +:+ s2 +:+ s3)).
  by rewrite IH.
Qed.

(** X16: [Error()] panics in one situation only: the path is not empty, a
    value is present and serialises, and [MaxKeywordErrStringLen] is below
    -1.  In particular an error without a path, or without a value, renders
    whatever the limit is. *)
Theorem Error_panics_iff g (v : KeyError) q :
  Error json_Marshal g v = Panicked q ↔
  PropertyPath v ≠ EmptyString ∧
  InvalidValue v ≠ None ∧
  (∃ bt, json_Marshal (InvalidValue v) = Some bt) ∧
  MaxKeywordErrStringLen g < -1 ∧
  q = SliceBoundsOutOfRange (MaxKeywordErrStringLen g).
Proof.
  unfold Error.
  destruct (decide (PropertyPath v ≠ EmptyString)) as [Hp|Hp].
  - rewrite (bool_decide_eq_true_2 _ Hp).
    destruct (decide (InvalidValue v ≠ None)) as [Hv|Hv].
    + rewrite (bool_decide_eq_true_2 _ Hv). cbn [andb].
      rewrite <-(InvalidValueString_panics_iff g (InvalidValue v) q).
      destruct (InvalidValueString json_Marshal g (InvalidValue v)); simpl.
      * split; [done|]. by intros (_ & _ & ?).
      * split; [intros [= <-]; by split_and!|]. by intros (_ & _ & ->).
    + rewrite (bool_decide_eq_false_2 _ Hv). cbn [andb].
      split; [done|]. by intros (_ & ? & _).
  - rewrite (bool_decide_eq_false_2 _ Hp). cbn [andb].
    split; [done|]. by intros (? & _).
Qed.

(** X17: when the path is not empty and the value is present but cannot
    be serialised, [Error()] renders the path, a colon, two spaces and the
    message: the empty rendering of the value sits between the two
    separators.  This holds for every limit. *)
Theorem Error_unserialisable_value g (v : KeyError) :
  PropertyPath v ≠ EmptyString →
  InvalidValue v ≠ None →
  json_Marshal (InvalidValue v) = None →
  Error json_Marshal g v = Returned (PropertyPath v +:+ ":  " +:+ Message v).
Proof.
  intros Hp Hv Hm. unfold Error.
  rewrite (bool_decide_eq_true_2 _ Hp), (bool_decide_eq_true_2 _ Hv). cbn [andb].
  by rewrite (InvalidValueString_no_value g _ Hm).
Qed.

(** X18: with [MaxKeywordErrStringLen] equal to -1 or not negative,
    [Error()] returns for every [KeyError], and what it returns starts with
    the path and ends with the message. *)
Theorem Error_returns_path_and_message g (v : KeyError) :
  MaxKeywordErrStringLen g = -1 ∨ 0 ≤ MaxKeywordErrStringLen g →
  ∃ middle,
    Error json_Marshal g v = Returned (PropertyPath v +:+ middle +:+ Message v).
Proof.
  intros Hn. unfold Error.
  destruct (decide (PropertyPath v ≠ EmptyString)) as [Hp|Hp].
  - rewrite (bool_decide_eq_true_2 _ Hp).
    destruct (decide (InvalidValue v ≠ None)) as [Hv|Hv].
    + rewrite (bool_decide_eq_true_2 _ Hv). cbn [andb].
      destruct (InvalidValueString json_Marshal g (InvalidValue v))
        as [val|q] eqn:E.
      * exists (": " +:+ val +:+ " ")%string. simpl.
        by rewrite !string_app_assoc.
      * apply InvalidValueString_panics_iff in E as (_ & ? & _). lia.
    + rewrite (bool_decide_eq_false_2 _ Hv). cbn [andb].
      by exists ": "%string.
  - rewrite (bool_decide_eq_false_2 _ Hp). cbn [andb].
    apply dec_stable in Hp. rewrite Hp. by exists EmptyString.
Qed.

End ErrorFacts.

(** * The further properties at concrete inputs *)

(** Registering "format" in the registry that holds "type" and "enum". *)
Lemma RegisterKeyword_effect_witness :
  keywordOrder r0 ≠ keywordInsertOrder r0 ∧
  IsRegisteredKeyword r0 "format" (RegisterKeyword r0 "format" (failing "format") h2) = true ∧
  GetKeywordInsertOrder r0 "format" (RegisterKeyword r0 "format" (failing "format") h2) = 2 ∧
  GetKeywordInsertOrder r0 "type" (RegisterKeyword r0 "format" (failing "format") h2) = 0.
Proof.
  assert (keywordOrder r0 ≠ keywordInsertOrder r0) as Hne by by_evaluation.
  destruct (RegisterKeyword_effect r0 "format" (failing "format") h2 Hne)
    as (Hreg & _ & Hord & _ & Hother).
  destruct (Hother "type"%string) as (_ & _ & Htype); [by_evaluation|].
  split_and!; [exact Hne|exact Hreg| |].
  - rewrite Hord. vm_compute. reflexivity.
  - rewrite Htype. vm_compute. reflexivity.
Defined.

(** A priority for "format", which is not registered. *)
Lemma SetKeywordOrder_effect_witness :
  keywordOrder r0 ≠ keywordInsertOrder r0 ∧
  GetKeywordOrder r0 "format" (SetKeywordOrder r0 "format" 5 h2) = 5 ∧
  IsRegisteredKeyword r0 "format" (SetKeywordOrder r0 "format" 5 h2) = false ∧
  GetKeywordOrder r0 "type" (SetKeywordOrder r0 "format" 5 h2) = 1.
Proof.
  assert (keywordOrder r0 ≠ keywordInsertOrder r0) as Hne by by_evaluation.
  destruct (SetKeywordOrder_effect r0 "format" 5 h2 Hne) as (Hset & Hother & Hrest).
  destruct (Hrest "format"%string) as (Hreg & _ & _).
  split_and!; [exact Hne|exact Hset| |].
  - rewrite Hreg. vm_compute. reflexivity.
  - rewrite (Hother "type"%string); [vm_compute; reflexivity|by_evaluation].
Defined.

(** Priorities of "type" and "enum" set in either order. *)
Lemma SetKeywordOrder_twice_witness :
  "type"%string ≠ "enum"%string ∧
  same_lookups r0 (SetKeywordOrder r0 "type" 3 (SetKeywordOrder r0 "enum" 4 h2))
               r0 (SetKeywordOrder r0 "enum" 4 (SetKeywordOrder r0 "type" 3 h2)).
Proof.
  assert ("type"%string ≠ "enum"%string) as Hne by by_evaluation.
  split; [exact Hne|].
  exact (proj2 (SetKeywordOrder_twice r0 "type" "enum" 3 4 h2) Hne).
Defined.

(** The priority of "format" set before and after registering it. *)
Lemma SetKeywordOrder_RegisterKeyword_commute_witness :
  keywordOrder r0 ≠ keywordInsertOrder r0 ∧
  same_lookups
    r0 (SetKeywordOrder r0 "format" 5 (RegisterKeyword r0 "format" (failing "format") h2))
    r0 (RegisterKeyword r0 "format" (failing "format") (SetKeywordOrder r0 "format" 5 h2)).
Proof.
  assert (keywordOrder r0 ≠ keywordInsertOrder r0) as Hne by by_evaluation.
  split; [exact Hne|].
  exact (SetKeywordOrder_RegisterKeyword_commute
           r0 "format" 5 "format" (failing "format") h2 Hne).
Defined.

(** The registry that holds "type" and "enum" is loaded. *)
Lemma IsRegistryLoaded_iff_witness :
  IsRegisteredKeyword r0 "enum" h2 = true ∧ IsRegistryLoaded r0 h2 = true.
Proof.
  assert (IsRegisteredKeyword r0 "enum" h2 = true) as H by (vm_compute; reflexivity).
  split; [exact H|].
  apply (proj2 (IsRegistryLoaded_iff r0 h2)). exists "enum"%string. exact H.
Defined.

(** "type" registered twice: three names, insert orders up to 3. *)
Lemma lookups_after_any_calls_witness :
  newKeywordRegistry empty_store = (r0, h0) ∧
  0 ≤ GetKeywordInsertOrder r0 "type" (do_calls r0 calls_twice h0) ≤ 3 ∧
  GetKeywordInsertOrder r0 "format" (do_calls r0 calls_twice h0) = 1000 ∧
  IsRegistryLoaded r0 (do_calls r0 calls_twice h0) = true.
Proof.
  assert (newKeywordRegistry empty_store = (r0, h0)) as Hnew
    by (vm_compute; reflexivity).
  pose proof (lookups_after_any_calls empty_store calls_twice r0 h0 Hnew) as W.
  cbv zeta in W. destruct W as (_ & Hbound & Hout & Hloaded).
  split_and!; [exact Hnew|..].
  - apply (Hbound "type"%string). by_evaluation.
  - apply (Hbound "type"%string). by_evaluation.
  - apply Hout. by_evaluation.
  - apply Hloaded. discriminate.
Defined.

(** Copying [r0] while a second registry [r1] exists. *)
Lemma Copy_preserves_existing_registries_witness :
  heap_ok h3 ∧ registry_ok h3 r0 ∧ registry_ok h3 r1 ∧
  heap_ok (Copy r0 h3).2 ∧
  IsRegistryLoaded (Copy r0 h3).1 (Copy r0 h3).2 = IsRegistryLoaded r0 h3 ∧
  same_lookups r1 (Copy r0 h3).2 r1 h3 ∧
  separate (Copy r0 h3).1 r1.
Proof.
  assert (heap_ok h3) as Hh by by_evaluation.
  assert (registry_ok h3 r0) as Hr0 by by_evaluation.
  assert (registry_ok h3 r1) as Hr1 by by_evaluation.
  assert (Copy r0 h3 = ((Copy r0 h3).1, (Copy r0 h3).2)) as Hc
    by (vm_compute; reflexivity).
  destruct (Copy_preserves_existing_registries h3 r0 _ _ Hh Hr0 Hc)
    as (Hh' & _ & Hloaded & Hkeep).
  destruct (Hkeep r1 Hr1) as (_ & Hsame & Hsep).
  split_and!; [exact Hh|exact Hr0|exact Hr1|exact Hh'|exact Hloaded|
               exact Hsame|exact Hsep].
Defined.

(** "format" registered on a copy of the registry with two names. *)
Lemma RegisterKeyword_on_copy_witness :
  heap_ok h2 ∧ registry_ok h2 r0 ∧
  GetKeywordInsertOrder copied.1 "format"
    (RegisterKeyword copied.1 "format" (failing "format") copied.2) = 2 ∧
  same_lookups r0 (RegisterKeyword copied.1 "format" (failing "format") copied.2) r0 h2.
Proof.
  assert (heap_ok h2) as Hh by by_evaluation.
  assert (registry_ok h2 r0) as Hr by by_evaluation.
  assert (Copy r0 h2 = (copied.1, copied.2)) as Hc by (vm_compute; reflexivity).
  destruct (RegisterKeyword_on_copy h2 r0 copied.1 copied.2 "format"
              (failing "format") Hh Hr Hc) as (_ & _ & Hord & Hsrc).
  split_and!; [exact Hh|exact Hr| |exact Hsrc].
  rewrite Hord. vm_compute. reflexivity.
Defined.

(** The first access creates the shared registry. *)
Lemma getGlobalKeywordRegistry_creates_once_witness :
  Package.state_ok initial_state ∧
  Package.kr (Package.getGlobalKeywordRegistry initial_state).2 =
    Some (Package.getGlobalKeywordRegistry initial_state).1 ∧
  Package.getGlobalKeywordRegistry (Package.getGlobalKeywordRegistry initial_state).2 =
    Package.getGlobalKeywordRegistry initial_state ∧
  IsRegistryLoaded (Package.getGlobalKeywordRegistry initial_state).1
    (Package.mem (Package.getGlobalKeywordRegistry initial_state).2) = false.
Proof.
  assert (Package.state_ok initial_state) as Hok by by_evaluation.
  assert (Package.getGlobalKeywordRegistry initial_state =
            ((Package.getGlobalKeywordRegistry initial_state).1,
             (Package.getGlobalKeywordRegistry initial_state).2)) as Hg
    by (vm_compute; reflexivity).
  destruct (getGlobalKeywordRegistry_creates_once initial_state _ _ Hok Hg)
    as (Hkr & _ & Hagain & Hnew & _).
  destruct (Hnew eq_refl) as (Hloaded & _).
  split_and!; [exact Hok|exact Hkr| |exact Hloaded].
  rewrite Hagain. symmetry. exact Hg.
Defined.

(** Package-level calls from the untouched state. *)
Lemma package_calls_are_method_calls_witness :
  Package.state_ok initial_state ∧
  Package.getGlobalKeywordRegistry initial_state =
    (r0, {| Package.kr := Some r0; Package.mem := h0 |}) ∧
  Package.do_calls calls_once initial_state =
    {| Package.kr := Some r0; Package.mem := do_calls r0 calls_once h0 |} ∧
  Package.state_ok (Package.do_calls calls_once initial_state).
Proof.
  assert (Package.state_ok initial_state) as Hok by by_evaluation.
  assert (Package.getGlobalKeywordRegistry initial_state =
            (r0, {| Package.kr := Some r0; Package.mem := h0 |})) as Hg
    by (vm_compute; reflexivity).
  pose proof (package_calls_are_method_calls initial_state r0 _
                (CallRegisterKeyword "type" (failing "type"))
                [CallSetKeywordOrder "type" 0;
                 CallRegisterKeyword "enum" (failing "enum");
                 CallRegisterKeyword "const" (failing "const")] Hok Hg) as W.
  cbv zeta in W. destruct W as (Heq & Hok' & _).
  split_and!; [exact Hok|exact Hg|exact Heq|exact Hok'].
Defined.

(** Three names registered through the package, then a snapshot. *)
Lemma snapshot_after_package_registrations_witness :
  Package.state_ok initial_state ∧ Package.kr initial_state = None ∧
  NoDup (registered_names calls_once) ∧
  GetKeywordInsertOrder
    (Package.copyGlobalKeywordRegistry (Package.do_calls calls_once initial_state)).1
    "const"
    (Package.mem
       (Package.copyGlobalKeywordRegistry (Package.do_calls calls_once initial_state)).2)
    = 2.
Proof.
  assert (Package.state_ok initial_state) as Hok by by_evaluation.
  assert (NoDup (registered_names calls_once)) as Hnd by by_evaluation.
  set (snap := Package.copyGlobalKeywordRegistry
                 (Package.do_calls calls_once initial_state)).
  assert (snap = (snap.1, snap.2)) as Hs by (vm_compute; reflexivity).
  destruct (snapshot_after_package_registrations
              initial_state calls_once snap.1 snap.2 Hok eq_refl Hnd Hs)
    as (_ & Hidx & _).
  split_and!; [exact Hok|reflexivity|exact Hnd|].
  exact (Hidx 2%nat "const"%string eq_refl).
Defined.

(** A snapshot of the shared registry after three registrations. *)
Lemma copyGlobalKeywordRegistry_snapshot_witness :
  let p := Package.do_calls calls_once initial_state in
  let c := (Package.copyGlobalKeywordRegistry p).1 in
  let p1 := (Package.copyGlobalKeywordRegistry p).2 in
  Package.state_ok p ∧
  Package.state_ok p1 ∧
  same_lookups c (Package.mem (Package.do_calls calls_later p1)) c (Package.mem p1).
Proof.
  cbv zeta.
  set (p := Package.do_calls calls_once initial_state).
  assert (Package.state_ok p) as Hok by by_evaluation.
  assert (Package.copyGlobalKeywordRegistry p =
            ((Package.copyGlobalKeywordRegistry p).1,
             (Package.copyGlobalKeywordRegistry p).2)) as Hs
    by (vm_compute; reflexivity).
  destruct (copyGlobalKeywordRegistry_snapshot p _ _ Hok Hs)
    as (Hok1 & _ & r & _ & _ & Hlater & _).
  split_and!; [exact Hok|exact Hok1|exact (Hlater calls_later)].
Defined.

(** A text with two pairs and a lone newline. *)
Lemma ReplaceAll_lf_cr_result_witness :
  occurs [x0a; x0d] [x61; x62] = false ∧
  bytes_ReplaceAll [x61; x62] [x0a; x0d] [x20] = [x61; x62] ∧
  occurs [x0a; x0d]
    (bytes_ReplaceAll [x0a; x0a; x0d; x0d; x61; x0a; x0d] [x0a; x0d] [x20]) = false.
Proof.
  assert (occurs [x0a; x0d] [x61; x62] = false) as Hocc by (vm_compute; reflexivity).
  destruct (ReplaceAll_lf_cr_result [x61; x62]) as (_ & _ & Hsame & _).
  destruct (ReplaceAll_lf_cr_result [x0a; x0a; x0d; x0d; x61; x0a; x0d])
    as (Hnone & _).
  split_and!; [exact Hocc|exact (Hsame Hocc)|exact Hnone].
Defined.

(** The default limit bounds every rendering by 23 bytes. *)
Lemma InvalidValueString_bounded_witness :
  0 ≤ MaxKeywordErrStringLen initial_pkgvars ∧
  ∃ out, InvalidValueString marshal initial_pkgvars
           (Some (Int 1234567890123456789012345678901234567890123)) = Returned out ∧
         len (String.list_byte_of_string out) ≤ 23.
Proof.
  assert (0 ≤ MaxKeywordErrStringLen initial_pkgvars) as Hn by (simpl; lia).
  split; [exact Hn|].
  exact (InvalidValueString_bounded marshal initial_pkgvars
           (Some (Int 1234567890123456789012345678901234567890123)) Hn).
Defined.

(** Five digits under a limit of 5 stay whole; six become eight bytes. *)
Lemma InvalidValueString_cut_only_when_longer_witness :
  let g := {| MaxKeywordErrStringLen := 5 |} in
  marshal (Some (Int 12345)) = Some (String.list_byte_of_string "12345") ∧
  occurs [x0a; x0d] (String.list_byte_of_string "12345") = false ∧
  0 ≤ MaxKeywordErrStringLen g ∧
  InvalidValueString marshal g (Some (Int 12345)) = Returned "12345"%string ∧
  ∃ out, InvalidValueString marshal g (Some (Int 123456)) = Returned out ∧
         len (String.list_byte_of_string out) = 8.
Proof.
  cbv zeta. set (g := {| MaxKeywordErrStringLen := 5 |}).
  assert (marshal (Some (Int 12345)) = Some (String.list_byte_of_string "12345"))
    as Hm by reflexivity.
  assert (occurs [x0a; x0d] (String.list_byte_of_string "12345") = false)
    as Hocc by (vm_compute; reflexivity).
  assert (marshal (Some (Int 123456)) = Some (String.list_byte_of_string "123456"))
    as Hm' by reflexivity.
  assert (occurs [x0a; x0d] (String.list_byte_of_string "123456") = false)
    as Hocc' by (vm_compute; reflexivity).
  assert (0 ≤ MaxKeywordErrStringLen g) as Hn by (simpl; lia).
  destruct (InvalidValueString_cut_only_when_longer marshal g _ _ Hm Hocc Hn)
    as (Hwhole & _).
  destruct (InvalidValueString_cut_only_when_longer marshal g _ _ Hm' Hocc' Hn)
    as (_ & Hcut).
  split_and!; [exact Hm|exact Hocc|exact Hn| |].
  - rewrite Hwhole; [vm_compute; reflexivity|vm_compute; discriminate].
  - apply Hcut. vm_compute. reflexivity.
Defined.

(** With the limit at -2 a full [KeyError] panics; one without a path does
    not. *)
Lemma Error_panics_iff_witness :
  let g := {| MaxKeywordErrStringLen := -2 |} in
  let v := {| PropertyPath := "/a"; InvalidValue := Some (Int 7);
              Message := "bad" |} in
  PropertyPath v ≠ EmptyString ∧ InvalidValue v ≠ None ∧
  marshal (InvalidValue v) = Some (String.list_byte_of_string "7") ∧
  MaxKeywordErrStringLen g < -1 ∧
  Error marshal g v = Panicked (SliceBoundsOutOfRange (-2)).
Proof.
  cbv zeta.
  set (g := {| MaxKeywordErrStringLen := -2 |}).
  set (v := {| PropertyPath := "/a"; InvalidValue := Some (Int 7);
               Message := "bad" |}).
  assert (PropertyPath v ≠ EmptyString) as Hp by discriminate.
  assert (InvalidValue v ≠ None) as Hv by discriminate.
  assert (marshal (InvalidValue v) = Some (String.list_byte_of_string "7"))
    as Hm by reflexivity.
  assert (MaxKeywordErrStringLen g < -1) as Hn by (simpl; lia).
  split_and!; [exact Hp|exact Hv|exact Hm|exact Hn|].
  apply (proj2 (Error_panics_iff marshal g v (SliceBoundsOutOfRange (-2)))).
  split_and!; [exact Hp|exact Hv|by eauto|exact Hn|reflexivity].
Defined.

(** A channel as the invalid value. *)
Lemma Error_unserialisable_value_witness :
  let v := {| PropertyPath := "/a"; InvalidValue := Some Chan; Message := "bad" |} in
  PropertyPath v ≠ EmptyString ∧ InvalidValue v ≠ None ∧
  marshal (InvalidValue v) = None ∧
  Error marshal initial_pkgvars v = Returned "/a:  bad"%string.
Proof.
  cbv zeta.
  set (v := {| PropertyPath := "/a"; InvalidValue := Some Chan; Message := "bad" |}).
  assert (PropertyPath v ≠ EmptyString) as Hp by discriminate.
  assert (InvalidValue v ≠ None) as Hv by discriminate.
  assert (marshal (InvalidValue v) = None) as Hm by reflexivity.
  split_and!; [exact Hp|exact Hv|exact Hm|].
  exact (Error_unserialisable_value marshal initial_pkgvars v Hp Hv Hm).
Defined.

(** Under the default limit. *)
Lemma Error_returns_path_and_message_witness :
  let v := {| PropertyPath := "/a"; InvalidValue := Some (Int 7);
              Message := "bad" |} in
  (MaxKeywordErrStringLen initial_pkgvars = -1 ∨
   0 ≤ MaxKeywordErrStringLen initial_pkgvars) ∧
  ∃ middle, Error marshal initial_pkgvars v =
              Returned (PropertyPath v +:+ middle +:+ Message v).
Proof.
  cbv zeta.
  assert (MaxKeywordErrStringLen initial_pkgvars = -1 ∨
          0 ≤ MaxKeywordErrStringLen initial_pkgvars) as Hn by (right; simpl; lia).
  split; [exact Hn|].
  exact (Error_returns_path_and_message marshal initial_pkgvars _ Hn).
Defined.
